(** * ali-rds [lib/operator.js]: the SQL statement composer

    A shallow embedding of the [Operator] class and of the laws its
    composed SQL text obeys.  JavaScript values are an inductive type,
    strings are [string], objects are association lists kept in
    enumeration order, the caller's [options] objects live in a store
    addressed by location, and the asynchronous operations are
    computations in a state-and-exception monad whose state records the
    store and the SQL texts handed to the execution delegate. *)

From Stdlib Require Import String Ascii List ZArith Bool Lia DecimalString.
Import ListNotations.
Local Open Scope list_scope.
Local Open Scope string_scope.
Set Warnings "-register-all".

(** ** JavaScript values and the primitives the operator relies on *)

Module Js.

(** Plain data as the operator receives it.  [VNum] carries the
    integer-valued numbers (the ones whose [String()] form is their decimal
    numeral); [VObj] lists the own enumerable properties of a plain object,
    one whose prototype is [Object.prototype], in the order [for ... in] and
    [Object.keys] visit them.  A property may have any name, the names of
    the members of [Object.prototype] included ([hasOwnProperty],
    [constructor], [__proto__], ...): it then hides the member.  A string
    is the UTF-8 text of the JavaScript string. *)
Inductive value : Type :=
| VUndefined
| VNull
| VBool (b : bool)
| VNum (n : Z)
| VStr (s : string)
| VArr (l : list value)
| VObj (o : list (string * value)).

Definition obj : Type := list (string * value).

(** What a JavaScript [throw] carries here: an [Error] instance. *)
Record error : Type := mkError
  { err_name : string;
    err_message : string;
    err_stack : string }.

Inductive result (A : Type) : Type :=
| Ok (a : A)
| Throw (e : error).
Arguments Ok {A} a.
Arguments Throw {A} e.

Definition rbind {A B} (r : result A) (k : A -> result B) : result B :=
  match r with
  | Ok a => k a
  | Throw e => Throw e
  end.

Fixpoint rmap_list {A B} (f : A -> result B) (l : list A) : result (list B) :=
  match l with
  | [] => Ok []
  | x :: r => rbind (f x) (fun y => rbind (rmap_list f r) (fun ys => Ok (y :: ys)))
  end.

(** A loop over [l] that carries [a] and stops at the first throw. *)
Fixpoint rfold_left {A B} (f : A -> B -> result A) (l : list B) (a : A)
  : result A :=
  match l with
  | [] => Ok a
  | x :: r => rbind (f a x) (fun a' => rfold_left f r a')
  end.

(** [ToBoolean]: the test behind [!x], [x || y] and [x && y]. *)
Definition truthy (v : value) : bool :=
  match v with
  | VUndefined | VNull => false
  | VBool b => b
  | VNum n => negb (Z.eqb n 0)
  | VStr s => negb (String.eqb s "")
  | VArr _ | VObj _ => true
  end.

Definition is_nullish (v : value) : bool :=
  match v with
  | VUndefined | VNull => true
  | _ => false
  end.

Definition isArray (v : value) : bool :=
  match v with VArr _ => true | _ => false end.

Definition is_string (v : value) : bool :=
  match v with VStr _ => true | _ => false end.

Definition is_number (v : value) : bool :=
  match v with VNum _ => true | _ => false end.

(** [Array.prototype.push]. *)
Definition push {A} (l : list A) (x : A) : list A := (l ++ [x])%list.

(** [Array.prototype.join] on an array of strings. *)
Fixpoint join (sep : string) (l : list string) : string :=
  match l with
  | [] => ""
  | [x] => x
  | x :: r => x ++ sep ++ join sep r
  end.

Definition number_to_string (n : Z) : string :=
  NilZero.string_of_int (Z.to_int n).

(** [String(v)]. *)
Fixpoint to_String (v : value) : string :=
  match v with
  | VUndefined => "undefined"
  | VNull => "null"
  | VBool true => "true"
  | VBool false => "false"
  | VNum n => number_to_string n
  | VStr s => s
  | VArr l =>
      join "," (map (fun x => if is_nullish x then "" else to_String x) l)
  | VObj _ => "[object Object]"
  end.

Definition upper_ascii (c : ascii) : ascii :=
  let n := nat_of_ascii c in
  if andb (Nat.leb 97 n) (Nat.leb n 122) then ascii_of_nat (n - 32) else c.

Definition byte_is (c : ascii) (n : nat) : bool := Ascii.eqb c (ascii_of_nat n).

(** The characters of two bytes whose upper case is ASCII text: sharp s
    (U+00DF), dotless i (U+0131) and long s (U+017F). *)
Definition upper_two (c d : ascii) : option string :=
  if andb (byte_is c 195) (byte_is d 159) then Some "SS"
  else if andb (byte_is c 196) (byte_is d 177) then Some "I"
  else if andb (byte_is c 197) (byte_is d 191) then Some "S"
  else None.

(** The characters of three bytes whose upper case is ASCII text: the
    ligatures U+FB00 to U+FB06. *)
Definition upper_three (c d e : ascii) : option string :=
  if andb (byte_is c 239) (byte_is d 172)
  then if byte_is e 128 then Some "FF"
       else if byte_is e 129 then Some "FI"
       else if byte_is e 130 then Some "FL"
       else if byte_is e 131 then Some "FFI"
       else if byte_is e 132 then Some "FFL"
       else if byte_is e 133 then Some "ST"
       else if byte_is e 134 then Some "ST"
       else None
  else None.

(** [String.prototype.toUpperCase], as far as the operator can tell: it
    compares the result with words of ASCII capitals only.  The ASCII
    letters are mapped, and so is every character beyond ASCII whose upper
    case is ASCII text: [upper_two] and [upper_three] list them all.  The
    upper case of any other character holds a character beyond ASCII, and
    so does the character itself, which is kept here: the result equals a
    given ASCII word exactly when the JavaScript result does. *)
Fixpoint toUpperCase (s : string) : string :=
  match s with
  | EmptyString => EmptyString
  | String c r =>
      match r with
      | EmptyString => String (upper_ascii c) EmptyString
      | String d r' =>
          match upper_two c d with
          | Some u => u ++ toUpperCase r'
          | None =>
              match r' with
              | EmptyString => String (upper_ascii c) (toUpperCase r)
              | String e r'' =>
                  match upper_three c d e with
                  | Some u => u ++ toUpperCase r''
                  | None => String (upper_ascii c) (toUpperCase r)
                  end
              end
          end
      end
  end.

(** [String.prototype.indexOf(needle)]: [None] stands for [-1]. *)
Fixpoint indexOf (needle s : string) : option nat :=
  if String.prefix needle s then Some 0
  else match s with
       | EmptyString => None
       | String _ r => option_map S (indexOf needle r)
       end.

(** [String.prototype.substring(n)]. *)
Fixpoint substring_from (n : nat) (s : string) : string :=
  match n, s with
  | 0, _ => s
  | S k, EmptyString => EmptyString
  | S k, String _ r => substring_from k r
  end.

(** The characters of a string, each as a one-character string. *)
Fixpoint chars (s : string) : list string :=
  match s with
  | EmptyString => []
  | String c r => String c EmptyString :: chars r
  end.

Definition is_digit (c : ascii) : bool :=
  let n := nat_of_ascii c in andb (Nat.leb 48 n) (Nat.leb n 57).

Fixpoint digits_value (acc : N) (s : string) : option N :=
  match s with
  | EmptyString => Some acc
  | String c r =>
      if is_digit c
      then digits_value (acc * 10 + N.of_nat (nat_of_ascii c - 48)) r
      else None
  end.

(** A property key that is an array index: a canonical decimal numeral
    below 2^32 - 1.  Such keys are enumerated first, in ascending order. *)
Definition array_index (k : string) : option N :=
  match k with
  | EmptyString => None
  | String c r =>
      if andb (Ascii.eqb c "0") (negb (String.eqb r "")) then None
      else match digits_value 0 k with
           | Some n => if N.ltb n 4294967295 then Some n else None
           | None => None
           end
  end.

(** Property tables: the own properties of an object, in enumeration
    order, whatever the properties hold. *)
Section Props.
Context {V : Type}.

Fixpoint lookup (k : string) (o : list (string * V)) : option V :=
  match o with
  | [] => None
  | (k', v) :: r => if String.eqb k k' then Some v else lookup k r
  end.

Definition has_key (k : string) (o : list (string * V)) : bool :=
  match lookup k o with Some _ => true | None => false end.

Fixpoint replace_key (k : string) (v : V) (o : list (string * V))
  : list (string * V) :=
  match o with
  | [] => []
  | (k', v') :: r =>
      if String.eqb k k' then (k', v) :: r else (k', v') :: replace_key k v r
  end.

(** Where a new array-index key [n] goes: before the first key that is not
    an array index or is a larger one. *)
Fixpoint insert_index (n : N) (k : string) (v : V) (o : list (string * V))
  : list (string * V) :=
  match o with
  | [] => [(k, v)]
  | (k', v') :: r =>
      match array_index k' with
      | Some m => if N.ltb n m then (k, v) :: o
                  else (k', v') :: insert_index n k v r
      | None => (k, v) :: o
      end
  end.

(** [o[k] = v] on a plain object: an existing property keeps its place, a
    new one is enumerated after the earlier string keys (or among the
    array-index keys, in numeric order). *)
Definition set_prop (k : string) (v : V) (o : list (string * V))
  : list (string * V) :=
  if has_key k o then replace_key k v o
  else match array_index k with
       | Some n => insert_index n k v o
       | None => push o (k, v)
       end.

End Props.

(** The names of the members of [Object.prototype]: what a plain object
    answers to besides its own properties.  Each of them is a function,
    except [__proto__], which reads as [Object.prototype] itself: all are
    truthy, none has a member [when], [push] or [indexOf]. *)
Definition prototype_members : list string :=
  ["constructor"; "hasOwnProperty"; "isPrototypeOf"; "propertyIsEnumerable";
   "toLocaleString"; "toString"; "valueOf"; "__proto__";
   "__defineGetter__"; "__defineSetter__"; "__lookupGetter__";
   "__lookupSetter__"].

Definition is_prototype_member (k : string) : bool :=
  existsb (String.eqb k) prototype_members.

Definition index_entries (l : list value) : obj :=
  map (fun p => (number_to_string (Z.of_nat (fst p)), snd p))
      (combine (seq 0 (length l)) l).

(** The (key, value) pairs a [for (const key in v)] loop visits, with
    [v[key]] at each. *)
Definition for_in (v : value) : obj :=
  match v with
  | VObj o => o
  | VArr l => index_entries l
  | VStr s => index_entries (map VStr (chars s))
  | _ => []
  end.

(** The engine fills in the [stack] of an error it constructs, from the
    error's name and message and the frames of the throw site. *)
Class Engine : Type :=
  { capture_stack : string -> string -> string }.

Section Throwing.
Context {E : Engine}.

Definition new_Error (msg : string) : error :=
  mkError "Error" msg (capture_stack "Error" msg).

Definition new_TypeError (msg : string) : error :=
  mkError "TypeError" msg (capture_stack "TypeError" msg).

Definition nth_value (i : N) (l : list value) : value :=
  nth (N.to_nat i) l VUndefined.

(** The property read [v[k]] (also written [v.k]) of a property the
    value itself has, or of a name that nothing on its prototype chain
    answers to (the read then gives [undefined]).  The operator reads
    names of its own choice ([length], [id], [row], [tableName], ...) and
    keys it has enumerated; only [insert] and [update] read a name the
    caller chose, [row[column]], and what they then find on
    [Object.prototype] is no data: the statements about their texts keep
    to the columns for which [is_prototype_member] is false or which the
    row has. *)
Definition get_prop (v : value) (k : string) : result value :=
  match v with
  | VUndefined | VNull =>
      Throw (new_TypeError ("Cannot read properties of " ++ to_String v
                            ++ " (reading '" ++ k ++ "')"))
  | VObj o => Ok (match lookup k o with Some x => x | None => VUndefined end)
  | VArr l =>
      if String.eqb k "length" then Ok (VNum (Z.of_nat (length l)))
      else match array_index k with
           | Some i => Ok (nth_value i l)
           | None => Ok VUndefined
           end
  | VStr s =>
      if String.eqb k "length" then Ok (VNum (Z.of_nat (String.length s)))
      else match array_index k with
           | Some i => Ok (nth_value i (map VStr (chars s)))
           | None => Ok VUndefined
           end
  | VBool _ | VNum _ => Ok VUndefined
  end.

(** [Object.keys(v)]. *)
Definition object_keys (v : value) : result (list string) :=
  match v with
  | VUndefined | VNull =>
      Throw (new_TypeError "Cannot convert undefined or null to object")
  | _ => Ok (map fst (for_in v))
  end.

(** [k in v]. *)
Definition in_op (k : string) (v : value) : result bool :=
  match v with
  | VObj o => Ok (has_key k o)
  | VArr l =>
      Ok (orb (String.eqb k "length")
              (match array_index k with
               | Some i => N.ltb i (N.of_nat (length l))
               | None => false
               end))
  | _ =>
      Throw (new_TypeError ("Cannot use 'in' operator to search for '" ++ k
                            ++ "' in " ++ to_String v))
  end.

(** The elements a [for (const x of v)] loop visits; [what] is the
    expression looped over, which the engine names when it is not
    iterable. *)
Definition for_of (what : string) (v : value) : result (list value) :=
  match v with
  | VArr l => Ok l
  | VStr s => Ok (map VStr (chars s))
  | _ => Throw (new_TypeError (what ++ " is not iterable"))
  end.

(** [v.hasOwnProperty(k)], with [what] the expression [v] is written as.
    The method is looked up on the value: an object that has a property
    named [hasOwnProperty] of its own answers with that property, which
    is data and cannot be called. *)
Definition hasOwnProperty (what : string) (v : value) (k : string)
  : result bool :=
  match v with
  | VUndefined | VNull =>
      Throw (new_TypeError ("Cannot read properties of " ++ to_String v
                            ++ " (reading 'hasOwnProperty')"))
  | VArr _ | VStr _ => Ok (orb (String.eqb k "length") (has_key k (for_in v)))
  | VObj o =>
      if has_key "hasOwnProperty" o
      then Throw (new_TypeError (what ++ ".hasOwnProperty is not a function"))
      else Ok (has_key k o)
  | _ => Ok false
  end.

(** [s.toUpperCase()] as a method call: only strings have the method. *)
Definition call_toUpperCase (v : value) : result string :=
  match v with
  | VStr s => Ok (toUpperCase s)
  | VUndefined | VNull =>
      Throw (new_TypeError ("Cannot read properties of " ++ to_String v
                            ++ " (reading 'toUpperCase')"))
  | _ => Throw (new_TypeError "lockType.toUpperCase is not a function")
  end.

End Throwing.

End Js.

(** ** The escaper and the positional formatter *)

Module SqlString.
Import Js.

Definition backslash : ascii := ascii_of_nat 92.

Definition escaped (c : string) : string := String backslash c.

Definition is_special (c : ascii) : option string :=
  match nat_of_ascii c with
  | 0 => Some (escaped "0")
  | 8 => Some (escaped "b")
  | 9 => Some (escaped "t")
  | 10 => Some (escaped "n")
  | 13 => Some (escaped "r")
  | 26 => Some (escaped "Z")
  | 34 => Some (escaped (String (ascii_of_nat 34) EmptyString))
  | 39 => Some (escaped "'")
  | 92 => Some (escaped (String backslash EmptyString))
  | _ => None
  end.

Fixpoint escape_chars (s : string) : string :=
  match s with
  | EmptyString => EmptyString
  | String c r =>
      match is_special c with
      | Some e => e ++ escape_chars r
      | None => String c (escape_chars r)
      end
  end.

(** Modelled from the spec: the string case of [SqlString.escape], which
    [lib/sqlstring.js] provides: single quotes around the text, with the
    control characters, the quotes, the backslash and the null byte
    escaped by a backslash. *)
Definition escapeString (s : string) : string :=
  "'" ++ escape_chars s ++ "'".

Fixpoint double_backticks (s : string) : string :=
  match s with
  | EmptyString => EmptyString
  | String c r =>
      if Ascii.eqb c "`" then String "`" (String "`" (double_backticks r))
      else String c (double_backticks r)
  end.

Fixpoint split_qualifier (s : string) : string :=
  match s with
  | EmptyString => EmptyString
  | String c r =>
      if Ascii.eqb c "." then "`.`" ++ split_qualifier r
      else String c (split_qualifier r)
  end.

Definition quote_id (forbidQualified : bool) (s : string) : string :=
  "`" ++ (if forbidQualified then double_backticks s
          else split_qualifier (double_backticks s)) ++ "`".

(** Modelled from the spec: [SqlString.escapeId] of [lib/sqlstring.js]: a
    name is wrapped in backticks with every embedded backtick doubled and,
    unless qualified names are forbidden, split at its dots; an array of
    names becomes the comma-separated list of its escaped members. *)
Fixpoint escapeId_with (forbidQualified : bool) (v : value) : string :=
  match v with
  | VArr l => join ", " (map (escapeId_with forbidQualified) l)
  | _ => quote_id forbidQualified (to_String v)
  end.

Definition escapeId (v : value) : string := escapeId_with false v.

(** Modelled from the spec: [SqlString.escape] of [lib/sqlstring.js], on the
    values of [Js.value]: [undefined] and [null] give NULL, booleans and
    numbers their literal, strings the quoted text, an array the
    comma-joined list of its escaped elements with a nested array as a
    parenthesized tuple, and a plain object either the opaque string of its
    [toString()] (when [stringifyObjects] holds, as it does for whatever is
    nested in an array or an object) or its comma-joined [key = value]
    list. *)
Fixpoint escape_with (stringifyObjects : bool) (v : value) : string :=
  match v with
  | VUndefined | VNull => "NULL"
  | VBool true => "true"
  | VBool false => "false"
  | VNum n => number_to_string n
  | VStr s => escapeString s
  | VArr l =>
      join ", " (map (fun x => match x with
                               | VArr _ => "(" ++ escape_with stringifyObjects x ++ ")"
                               | _ => escape_with true x
                               end) l)
  | VObj o =>
      if stringifyObjects then escapeString "[object Object]"
      else join ", " (map (fun kv => escapeId (VStr (fst kv)) ++ " = "
                                     ++ escape_with true (snd kv)) o)
  end.

Definition escape (v : value) : string := escape_with false v.

Fixpoint question_marks (n : nat) : string :=
  match n with
  | 0 => EmptyString
  | S k => String "?" (question_marks k)
  end.

(** What a maximal run of [q] question marks becomes, and the values left:
    a run of one takes the next value as a literal, a run of two takes it
    as an identifier, a longer run and a run met after the values ran out
    stay as they are. *)
Definition placeholder (stringifyObjects : bool) (q : nat) (vals : list value)
  : string * list value :=
  match q, vals with
  | 0, _ => (EmptyString, vals)
  | 1, v :: r => (escape_with stringifyObjects v, r)
  | 2, v :: r => (escapeId v, r)
  | _, _ => (question_marks q, vals)
  end.

(** The left-to-right scan of the template; [q] counts the question marks
    of the run being read. *)
Fixpoint scan (stringifyObjects : bool) (sql : string) (q : nat)
  (vals : list value) : string :=
  match sql with
  | EmptyString => fst (placeholder stringifyObjects q vals)
  | String c r =>
      if Ascii.eqb c "?" then scan stringifyObjects r (S q) vals
      else let (text, vals') := placeholder stringifyObjects q vals in
           text ++ String c (scan stringifyObjects r 0 vals')
  end.

(** Modelled from the spec: [SqlString.format] of [lib/sqlstring.js], the
    positional mode: [undefined] or [null] values leave the template as it
    is, a value that is not an array stands for the one-element array, and
    the placeholders take the values from left to right; extra values are
    ignored and placeholders without a value stay. *)
Definition format (sql : string) (values : value) (stringifyObjects : bool)
  : string :=
  match values with
  | VUndefined | VNull => sql
  | VArr l => scan stringifyObjects sql 0 l
  | v => scan stringifyObjects sql 0 [v]
  end.

End SqlString.

(** ** The operator *)

Module Operator.
Import Js.

(** The execution delegate: [_query(sql)] resolves with the rows or rejects
    with an error.  A subclass supplies it. *)
Class Delegate : Type :=
  { _query : string -> result value }.

(** The caller's [options] objects are addressed by location; [sent] lists
    the SQL texts handed to the delegate, oldest first. *)
Definition loc : Type := nat.

Record store : Type := mkStore
  { heap : loc -> obj;
    next : loc;
    sent : list string }.

(** Computations of the operator: they read and write the store and end
    with a value or with a thrown error (for an [async] method, the
    rejection of its promise). *)
Definition M (A : Type) : Type := store -> result A * store.

Definition ret {A} (a : A) : M A := fun st => (Ok a, st).

Definition bind {A B} (m : M A) (k : A -> M B) : M B :=
  fun st => match m st with
            | (Ok a, st') => k a st'
            | (Throw e, st') => (Throw e, st')
            end.

Definition throw {A} (e : error) : M A := fun st => (Throw e, st).

Definition lift {A} (r : result A) : M A := fun st => (r, st).

Definition try_catch {A} (body : M A) (handler : error -> M A) : M A :=
  fun st => match body st with
            | (Ok a, st') => (Ok a, st')
            | (Throw e, st') => handler e st'
            end.

Notation "x <- m ;; k" := (bind m (fun x => k))
  (at level 61, m at next level, right associativity).
Notation "m ;;; k" := (bind m (fun _ => k))
  (at level 61, right associativity).

Definition update_heap (l : loc) (o : obj) (h : loc -> obj) : loc -> obj :=
  fun l' => if Nat.eqb l' l then o else h l'.

(** [{}]: a fresh object. *)
Definition alloc : M loc :=
  fun st => (Ok (next st),
             mkStore (update_heap (next st) [] (heap st)) (S (next st)) (sent st)).

(** [options.k]. *)
Definition read (l : loc) (k : string) : M value :=
  fun st => (Ok (match lookup k (heap st l) with
                 | Some v => v
                 | None => VUndefined
                 end), st).

(** [options.k = v]. *)
Definition write (l : loc) (k : string) (v : value) : M unit :=
  fun st => (Ok tt,
             mkStore (update_heap l (set_prop k v (heap st l)) (heap st))
                     (next st) (sent st)).

(** [options = options || {}]: [None] is the absent argument. *)
Definition or_fresh (options : option loc) : M loc :=
  match options with
  | Some l => ret l
  | None => alloc
  end.

Fixpoint mapM {A B} (f : A -> M B) (l : list A) : M (list B) :=
  match l with
  | [] => ret []
  | x :: r => y <- f x ;; ys <- mapM f r ;; ret (y :: ys)
  end.

Definition newline : string := String (ascii_of_nat 10) EmptyString.

Definition is_word (c : ascii) : bool :=
  let n := nat_of_ascii c in
  orb (andb (Nat.leb 48 n) (Nat.leb n 57))
      (orb (andb (Nat.leb 65 n) (Nat.leb n 90))
           (orb (andb (Nat.leb 97 n) (Nat.leb n 122)) (Nat.eqb n 95))).

(** The replacement of one match of [/\:(\w+)/]: [key] is the text read
    after a colon, [None] when no colon is open.  A colon without a word
    character after it is no match.  This is the replacement the callback
    returns; [named_match_call] below is the callback with its call of
    [values.hasOwnProperty], which can throw. *)
Definition named_match (values : obj) (key : option string) : string :=
  match key with
  | None => ""
  | Some EmptyString => ":"
  | Some k => match lookup k values with
              | Some v => SqlString.escape v
              | None => ":" ++ k
              end
  end.

(** [sql.replace(/\:(\w+)/g, ...)], read from left to right. *)
Fixpoint replace_named (values : obj) (sql : string) (key : option string)
  : string :=
  match sql with
  | EmptyString => named_match values key
  | String c r =>
      match key, is_word c with
      | Some k, true => replace_named values r (Some (k ++ String c EmptyString))
      | _, _ =>
          named_match values key ++
          (if Ascii.eqb c ":" then replace_named values r (Some EmptyString)
           else String c (replace_named values r None))
      end
  end.

(** The text [format] returns. *)
Definition format (sql : string) (values : value) (stringifyObjects : bool)
  : string :=
  match values with
  | VObj o => replace_named o sql None
  | _ => SqlString.format sql values stringifyObjects
  end.

Section Format.
Context {E : Engine}.

(** The callback of the replacement, run for one match: it asks
    [values.hasOwnProperty(key)] and reads [values[key]] when the answer
    is yes. *)
Definition named_match_call (values : obj) (key : option string)
  : result string :=
  match key with
  | None => Ok ""
  | Some EmptyString => Ok ":"
  | Some k =>
      rbind (hasOwnProperty "values" (VObj values) k) (fun own =>
      if own
      then rbind (get_prop (VObj values) k) (fun v => Ok (SqlString.escape v))
      else Ok (":" ++ k))
  end.

(** [sql.replace(/\:(\w+)/g, callback)]: the callback runs at each match,
    from left to right, and what it throws ends the replacement. *)
Fixpoint replace_named_call (values : obj) (sql : string) (key : option string)
  : result string :=
  match sql with
  | EmptyString => named_match_call values key
  | String c r =>
      match key, is_word c with
      | Some k, true =>
          replace_named_call values r (Some (k ++ String c EmptyString))
      | _, _ =>
          rbind (named_match_call values key) (fun text =>
          rbind (if Ascii.eqb c ":"
                 then replace_named_call values r (Some EmptyString)
                 else rbind (replace_named_call values r None)
                            (fun rest => Ok (String c rest)))
                (fun rest => Ok (text ++ rest)))
      end
  end.

(** The call [format(sql, values, stringifyObjects)]. *)
Definition format_call (sql : string) (values : value)
  (stringifyObjects : bool) : result string :=
  match values with
  | VObj o => replace_named_call o sql None
  | _ => Ok (SqlString.format sql values stringifyObjects)
  end.

End Format.

Definition where_template (v : value) : string :=
  if isArray v then "?? IN (?)"
  else if is_nullish v then "?? IS ?"
  else "?? = ?".

Definition _where (where_ : value) : string :=
  if negb (truthy where_) then ""
  else
    let wheres := map (fun kv => where_template (snd kv)) (for_in where_) in
    let values := flat_map (fun kv => [VStr (fst kv); snd kv]) (for_in where_) in
    if Nat.ltb 0 (length wheres)
    then format (" WHERE " ++ join " AND " wheres) (VArr values) false
    else "".

Definition _selectColumns (table columns : value) : string :=
  let columns := if truthy columns then columns else VStr "*" in
  match columns with
  | VStr "*" => format "SELECT * FROM ??" (VArr [table]) false
  | _ => format "SELECT ?? FROM ??" (VArr [columns; table]) false
  end.

Definition order_entry (v : value) : list string :=
  match v with
  | VStr _ => [SqlString.escapeId v]
  | VArr a =>
      let sort := toUpperCase (to_String (nth 1 a VUndefined)) in
      if orb (String.eqb sort "ASC") (String.eqb sort "DESC")
      then [SqlString.escapeId (nth 0 a VUndefined) ++ " " ++ sort]
      else [SqlString.escapeId (nth 0 a VUndefined)]
  | _ => []
  end.

Definition _limit (limit offset : value) : string :=
  if orb (negb (truthy limit)) (negb (is_number limit)) then ""
  else
    let offset := if is_number offset then offset else VNum 0 in
    " LIMIT " ++ to_String offset ++ ", " ++ to_String limit.

Definition strip_where (w : string) : string :=
  match indexOf "WHERE" w with
  | None => w
  | Some i => substring_from (i + 5) w
  end.

(** [a === b] on the values of the model; two arrays or two objects are
    two different objects. *)
Definition strict_eq (a b : value) : bool :=
  match a, b with
  | VUndefined, VUndefined => true
  | VNull, VNull => true
  | VBool x, VBool y => Bool.eqb x y
  | VNum x, VNum y => Z.eqb x y
  | VStr x, VStr y => String.eqb x y
  | _, _ => false
  end.

Definition lock_types : list string :=
  ["READ"; "WRITE"; "READ LOCAL"; "LOW_PRIORITY WRITE"].

Definition is_lock_type (s : string) : bool :=
  existsb (String.eqb s) lock_types.

(** The accumulators of [updateRows]: per column the [WHEN ... THEN ?]
    fragments with the queued values, and per condition column the distinct
    values met. *)
Definition sql_case : Type := list (string * (list string * list value)).
Definition where_acc : Type := list (string * list value).

Section Accumulators.
Context {E : Engine}.

(** One round of the loop over [option.row].  [SQL_CASE] starts as [{}]:
    [!SQL_CASE[key]] holds for a key that is neither a column met before
    nor the name of a member of [Object.prototype]; for such a name the
    member is found, nothing is stored, and [SQL_CASE[key].when.push]
    throws, the member having no [when]. *)
Definition push_case (w : string) (SQL_CASE : sql_case) (kv : string * value)
  : result sql_case :=
  if andb (negb (has_key (fst kv) SQL_CASE)) (is_prototype_member (fst kv))
  then Throw (new_TypeError "Cannot read properties of undefined (reading 'push')")
  else
    let SQL_CASE :=
      if has_key (fst kv) SQL_CASE then SQL_CASE
      else set_prop (fst kv) ([], []) SQL_CASE in
    match lookup (fst kv) SQL_CASE with
    | Some (when_, then_) =>
        Ok (set_prop (fst kv)
                     (push when_ (" WHEN " ++ w ++ " THEN ? "),
                      push then_ (snd kv))
                     SQL_CASE)
    | None => Ok SQL_CASE
    end.

(** One round of the loop over [option.where]; [WHERE] starts as [{}]
    too, and for the name of a member of [Object.prototype]
    [WHERE[key].indexOf] is no function. *)
Definition push_where (WHERE : where_acc) (kv : string * value)
  : result where_acc :=
  if andb (negb (has_key (fst kv) WHERE)) (is_prototype_member (fst kv))
  then Throw (new_TypeError "WHERE[key].indexOf is not a function")
  else
    let WHERE :=
      if has_key (fst kv) WHERE then WHERE else set_prop (fst kv) [] WHERE in
    match lookup (fst kv) WHERE with
    | Some seen =>
        if existsb (fun x => strict_eq x (snd kv)) seen then Ok WHERE
        else Ok (set_prop (fst kv) (push seen (snd kv)) WHERE)
    | None => Ok WHERE
    end.

End Accumulators.

Definition updateRows_template (SQL_CASE : sql_case) : list string :=
  map (fun c => " ?? = CASE " ++ join " " (fst (snd c)) ++ " ELSE ?? END ")
      SQL_CASE.

Definition updateRows_values (table : value) (SQL_CASE : sql_case)
  : list value :=
  table :: flat_map (fun c => VStr (fst c) :: push (snd (snd c)) (VStr (fst c)))
                    SQL_CASE.

Definition updateRows_sql (table : value) (SQL_CASE : sql_case)
  (WHERE : where_acc) : string :=
  format ("UPDATE ?? SET " ++ join " , " (updateRows_template SQL_CASE)
          ++ _where (VObj (map (fun w => (fst w, VArr (snd w))) WHERE)))
         (VArr (updateRows_values table SQL_CASE)) false.

Section Operations.
Context {E : Engine} {D : Delegate}.

Definition _orders (orders : value) : result string :=
  if negb (truthy orders) then Ok ""
  else
    let orders := if is_string orders then VArr [orders] else orders in
    rbind (for_of "orders" orders) (fun l =>
    Ok (" ORDER BY " ++ join ", " (flat_map order_entry l))).

(** [await this._query(sql)]: the text goes to the delegate. *)
Definition call_delegate (sql : string) : M value :=
  fun st => (_query sql, mkStore (heap st) (next st) (push (sent st) sql)).

Definition annotate (err : error) (sql : string) : error :=
  mkError (err_name err) (err_message err)
          (err_stack err ++ newline ++ "    sql: " ++ sql).

(** [query(sql)] when [values] is [None], [query(sql, values)] otherwise;
    the template is formatted to the text [format] returns (for the
    values with which the call of [format] throws instead, see
    [format_call]). *)
Definition query (sql : string) (values : option value) : M value :=
  let sql := match values with
             | Some v => format sql v false
             | None => sql
             end in
  try_catch
    (rows <- call_delegate sql ;;
     _ <- lift (get_prop rows "length") ;;
     ret rows)
    (fun err => throw (annotate err sql)).

(** [rows && rows[0] || null]. *)
Definition first_or_null (rows : value) : result value :=
  if truthy rows
  then rbind (get_prop rows "0") (fun r => Ok (if truthy r then r else VNull))
  else Ok VNull.

Definition queryOne (sql : string) (values : option value) : M value :=
  rows <- query sql values ;;
  lift (first_or_null rows).

Definition count (table where_ : value) : M value :=
  let sql := format "SELECT COUNT(*) as count FROM ??" (VArr [table]) false
             ++ _where where_ in
  rows <- query sql None ;;
  row <- lift (get_prop rows "0") ;;
  lift (get_prop row "count").

Definition select (table : value) (options : option loc) : M value :=
  l <- or_fresh options ;;
  columns <- read l "columns" ;;
  where_ <- read l "where" ;;
  orders <- read l "orders" ;;
  orders_sql <- lift (_orders orders) ;;
  limit <- read l "limit" ;;
  offset <- read l "offset" ;;
  let sql := _selectColumns table columns ++ _where where_ ++ orders_sql
             ++ _limit limit offset in
  query sql None.

Definition get (table where_ : value) (options : option loc) : M value :=
  l <- or_fresh options ;;
  write l "where" where_ ;;;
  write l "limit" (VNum 1) ;;;
  write l "offset" (VNum 0) ;;;
  rows <- select table (Some l) ;;
  lift (first_or_null rows).

(** [if (!options.columns) options.columns = Object.keys(source)]. *)
Definition default_columns (l : loc) (source : value) : M unit :=
  columns <- read l "columns" ;;
  if negb (truthy columns)
  then keys <- lift (object_keys source) ;;
       write l "columns" (VArr (map VStr keys))
  else ret tt.

(** The values of one row, in the order of [columns]. *)
Definition row_values (columns row : value) : result (list value) :=
  rbind (for_of "options.columns" columns) (fun cols =>
  rmap_list (fun column => get_prop row (to_String column)) cols).

Definition insert (table rows : value) (options : option loc) : M value :=
  l <- or_fresh options ;;
  let firstObj := match rows with
                  | VArr rs => nth 0 rs VUndefined
                  | _ => rows
                  end in
  let rows := match rows with
              | VArr rs => rs
              | _ => [rows]
              end in
  default_columns l firstObj ;;;
  columns <- read l "columns" ;;
  tuples <- lift (rmap_list (fun row => rbind (row_values columns row)
                                          (fun vs => Ok (VArr vs))) rows) ;;
  let sql := format ("INSERT INTO ??(??) VALUES"
                     ++ join ", " (map (fun _ => "(?)") rows))
                    (VArr (table :: columns :: tuples)) false in
  query sql None.

Definition update_no_condition : string :=
  "Can not auto detect update condition, please set options.where, or make sure obj.id exists".

(** [if (!options.where) { ... options.where = { id: row.id } }]. *)
Definition default_where (l : loc) (row : value) : M unit :=
  where_ <- read l "where" ;;
  if negb (truthy where_)
  then has_id <- lift (in_op "id" row) ;;
       if negb has_id then throw (new_Error update_no_condition)
       else id <- lift (get_prop row "id") ;;
            write l "where" (VObj [("id", id)])
  else ret tt.

Definition update (table row : value) (options : option loc) : M value :=
  l <- or_fresh options ;;
  default_columns l row ;;;
  default_where l row ;;;
  columns <- read l "columns" ;;
  cols <- lift (for_of "options.columns" columns) ;;
  values <- lift (rmap_list (fun column =>
                     rbind (get_prop row (to_String column))
                           (fun v => Ok [column; v])) cols) ;;
  where_ <- read l "where" ;;
  let sql := format "UPDATE ?? SET " (VArr [table]) false
             ++ format (join ", " (map (fun _ => "?? = ?") cols))
                       (VArr (concat values)) false
             ++ _where where_ in
  query sql None.

Definition updateRows_no_condition : string :=
  "Can not auto detect updateRows condition, please set option.row and option.where, or make sure option.id exists".

(** [result[key] = value] on the object the [reduce] builds, kept as its
    own properties and the enumerable properties of its prototype (none at
    first).  An assignment to [__proto__] goes to the setter of
    [Object.prototype]: an object, an array or [null] becomes the
    prototype, anything else is ignored.  Every other name becomes a
    property of the object itself. *)
Definition assign_entry (result : obj * obj) (kv : string * value)
  : obj * obj :=
  if String.eqb (fst kv) "__proto__"
  then match snd kv with
       | VObj p => (fst result, p)
       | VArr l => (fst result, index_entries l)
       | VNull => (fst result, [])
       | _ => result
       end
  else (set_prop (fst kv) (snd kv) (fst result), snd result).

(** What [for ... in] visits on the object, and what a read of the key
    gives there: its own properties, then those of the prototype that
    they do not hide. *)
Definition enumerated (result : obj * obj) : obj :=
  (fst result
   ++ filter (fun kv => negb (has_key (fst kv) (fst result))) (snd result))%list.

(** [Object.keys(option).reduce(...)]: the row of an entry given by its
    [id]. *)
Definition reduce_row (option : value) : obj :=
  enumerated (fold_left (fun result kv =>
                           if negb (String.eqb (fst kv) "id")
                           then assign_entry result kv
                           else result) (for_in option) ([], [])).

(** The first half of the [forEach] body: the entry as a (row, where)
    pair. *)
Definition normalize_option (option : value) : result (value * value) :=
  rbind (hasOwnProperty "option" option "id") (fun has_id =>
  if has_id
  then rbind (get_prop option "id") (fun id =>
       Ok (VObj (reduce_row option), VObj [("id", id)]))
  else rbind (get_prop option "row") (fun row =>
       rbind (if truthy row then get_prop option "where" else Ok row)
             (fun both =>
       if negb (truthy both) then Throw (new_Error updateRows_no_condition)
       else rbind (get_prop option "where") (fun where_ => Ok (row, where_))))).

(** One round of the [forEach]. *)
Definition updateRows_step (acc : sql_case * where_acc) (option : value)
  : result (sql_case * where_acc) :=
  rbind (normalize_option option) (fun rw =>
  let w := strip_where (_where (snd rw)) in
  rbind (rfold_left (push_case w) (for_in (fst rw)) (fst acc)) (fun SQL_CASE =>
  rbind (rfold_left push_where (for_in (snd rw)) (snd acc)) (fun WHERE =>
  Ok (SQL_CASE, WHERE)))).

Fixpoint updateRows_loop (acc : sql_case * where_acc) (options : list value)
  : result (sql_case * where_acc) :=
  match options with
  | [] => Ok acc
  | option :: rest =>
      rbind (updateRows_step acc option) (fun acc' => updateRows_loop acc' rest)
  end.

Definition updateRows (table options : value) : M value :=
  match options with
  | VArr opts =>
      acc <- lift (updateRows_loop ([], []) opts) ;;
      query (updateRows_sql table (fst acc) (snd acc)) None
  | _ => throw (new_Error "Options should be array")
  end.

Definition delete (table where_ : value) : M value :=
  let sql := format "DELETE FROM ??" (VArr [table]) false ++ _where where_ in
  query sql None.

Definition lock_type_message (tableName : value) : string :=
  "lock_type provided while trying to lock table `" ++ to_String tableName
  ++ "` must be one of the following(CASE INSENSITIVE):" ++ newline
  ++ "`READ` | `WRITE` | `READ LOCAL` | `LOW_PRIORITY WRITE`".

(** [const { tableName, lockType, tableAlias } = table] asks for an
    object to take apart. *)
Definition destructurable (table : value) : result unit :=
  if is_nullish table
  then Throw (new_TypeError ("Cannot destructure property 'tableName' of 'table' as it is "
                             ++ to_String table ++ "."))
  else Ok tt.

(** The loop of [#locks], from entry [i] on. *)
Fixpoint lock_entries (i : nat) (tableLocks : list value) : result string :=
  match tableLocks with
  | [] => Ok ""
  | table :: rest =>
      rbind (destructurable table) (fun _ =>
      rbind (get_prop table "tableName") (fun tableName =>
      rbind (get_prop table "lockType") (fun lockType =>
      rbind (get_prop table "tableAlias") (fun tableAlias =>
      if negb (truthy tableName)
      then Throw (new_Error "No table_name provided while trying to lock table")
      else if negb (truthy lockType)
      then Throw (new_Error ("No lock_type provided while trying to lock table `"
                             ++ to_String tableName ++ "`"))
      else
        rbind (call_toUpperCase lockType) (fun upper =>
        if negb (is_lock_type upper)
        then Throw (new_Error (lock_type_message tableName))
        else
          let sql := (if Nat.ltb 0 i then ", " else "")
                     ++ " " ++ SqlString.escapeId tableName ++ " "
                     ++ (if truthy tableAlias
                         then " AS " ++ SqlString.escapeId tableAlias ++ " "
                         else "")
                     ++ " " ++ to_String lockType in
          rbind (lock_entries (S i) rest) (fun more => Ok (sql ++ more)))))))
  end.

(** The private method [#locks]. *)
Definition hash_locks (tableLocks : list value) : result string :=
  if Nat.eqb (length tableLocks) 0
  then Throw (new_Error "Cannot lock empty tables.")
  else rbind (lock_entries 0 tableLocks) (fun sql =>
       Ok ("LOCK TABLES " ++ sql ++ ";")).

Definition locks (tables : list value) : M value :=
  sql <- lift (hash_locks tables) ;;
  query sql None.

Definition lockOne (tableName lockType tableAlias : value) : M value :=
  sql <- lift (hash_locks [VObj [("tableName", tableName);
                                 ("lockType", lockType);
                                 ("tableAlias", tableAlias)]]) ;;
  query sql None.

Definition unlock : M value := query "UNLOCK TABLES;" None.

End Operations.


Definition empty_store : store := mkStore (fun _ => []) 0 [].

End Operator.

(** ** The statements of the specification, as definitions *)

Module Spec.
Import Js Operator.

(** The text of one condition, as the WhereSpec rules give it. *)
Definition where_fragment (kv : string * value) : string :=
  match snd kv with
  | VArr _ =>
      SqlString.escapeId (VStr (fst kv)) ++ " IN (" ++ SqlString.escape (snd kv) ++ ")"
  | VUndefined | VNull =>
      SqlString.escapeId (VStr (fst kv)) ++ " IS NULL"
  | _ =>
      SqlString.escapeId (VStr (fst kv)) ++ " = " ++ SqlString.escape (snd kv)
  end.

Definition where_values (o : obj) : list value :=
  flat_map (fun kv => [VStr (fst kv); snd kv]) o.

Definition where_templates (o : obj) : list string :=
  map (fun kv => where_template (snd kv)) o.

(** [o.k] on a property table. *)
Definition prop (o : obj) (k : string) : value :=
  match lookup k o with
  | Some v => v
  | None => VUndefined
  end.

(** The text [query] sends: the template itself, or the template
    formatted with the values given as the second argument. *)
Definition query_text (sql : string) (values : option value) : string :=
  match values with
  | Some v => format sql v false
  | None => sql
  end.

(** The store after [sql] went to the delegate. *)
Definition after_send (sql : string) (st : store) : store :=
  mkStore (heap st) (next st) (push (sent st) sql).

(** An entry of an ORDER BY list that the builder renders. *)
Definition is_order_entry (v : value) : bool :=
  orb (is_string v) (isArray v).

(** A lock request the builder accepts: a table name, and a lock type
    that is one of the four once in upper case. *)
Definition valid_lock (o : obj) : bool :=
  andb (truthy (prop o "tableName"))
       (match prop o "lockType" with
        | VStr s => is_lock_type (toUpperCase s)
        | _ => false
        end).

(** The clause of one lock request, the lock type as the caller wrote
    it. *)
Definition lock_clause (o : obj) : string :=
  " " ++ SqlString.escapeId (prop o "tableName") ++ " "
  ++ (if truthy (prop o "tableAlias")
      then " AS " ++ SqlString.escapeId (prop o "tableAlias") ++ " "
      else "")
  ++ " " ++ to_String (prop o "lockType").

(** *** Named templates

    A template is the text before its first placeholder followed by the
    placeholders, each with its name and the text up to the next one. *)

Fixpoint all_word (s : string) : bool :=
  match s with
  | EmptyString => true
  | String c r => andb (is_word c) (all_word r)
  end.

Definition starts_with_word (s : string) : bool :=
  match s with
  | EmptyString => false
  | String c _ => is_word c
  end.

(** No colon of the text is followed by a word character. *)
Fixpoint no_placeholder (s : string) : bool :=
  match s with
  | EmptyString => true
  | String c r =>
      andb (negb (andb (Ascii.eqb c ":") (starts_with_word r)))
           (no_placeholder r)
  end.

(** A placeholder [:name] with the text after it: the name is a non-empty
    run of word characters, and it is the whole run. *)
Definition well_cut (p : string * string) : bool :=
  andb (negb (String.eqb (fst p) ""))
       (andb (all_word (fst p))
             (andb (negb (starts_with_word (snd p)))
                   (no_placeholder (snd p)))).

Fixpoint template_of (pieces : list (string * string)) : string :=
  match pieces with
  | [] => ""
  | p :: r => ":" ++ fst p ++ snd p ++ template_of r
  end.

(** What the specification puts for a placeholder: the escaped value of
    its key when the values have the key, the placeholder itself when they
    do not; the text after it is kept. *)
Definition render (values : obj) (p : string * string) : string :=
  match lookup (fst p) values with
  | Some v => SqlString.escape v ++ snd p
  | None => ":" ++ fst p ++ snd p
  end.


Fixpoint concat_strings (l : list string) : string :=
  match l with
  | [] => ""
  | x :: r => x ++ concat_strings r
  end.

(** An engine whose stacks are the headline of the error, and two
    delegates, for the concrete runs. *)
Definition headline_engine : Engine :=
  {| capture_stack := fun name msg => name ++ ": " ++ msg |}.

Definition one_row_delegate : Delegate :=
  {| _query := fun _ => Ok (VArr [VObj [("count", VNum 3)]]) |}.


Definition set_field (l : loc) (k : string) (v : value) (st : store) : store :=
  mkStore (update_heap l (set_prop k v (heap st l)) (heap st)) (next st) (sent st).

Definition first_row (rows : value) : value :=
  match rows with
  | VArr rs => nth 0 rs VUndefined
  | _ => rows
  end.

(** The store in which an operation works once [options = options || {}]
    is done, and the location of its options object. *)
Definition settle (options : option loc) (st : store) : loc * store :=
  match options with
  | Some l => (l, st)
  | None => (next st,
             mkStore (update_heap (next st) [] (heap st)) (S (next st)) (sent st))
  end.

(** No [where] among the options. *)
Definition where_absent (options : option loc) (st : store) : Prop :=
  truthy (prop (heap (snd (settle options st)) (fst (settle options st))) "where")
  = false.



(** The words of a text: the maximal runs without a blank. *)
Fixpoint words_from (s : string) (word : string) : list string :=
  match s with
  | EmptyString => if String.eqb word "" then [] else [word]
  | String c r =>
      if Ascii.eqb c " "
      then (if String.eqb word "" then words_from r ""
            else word :: words_from r "")
      else words_from r (word ++ String c EmptyString)
  end.

Definition words (s : string) : list string := words_from s "".

(** The batch of the specification: two rows given by their [id]. *)
Definition two_rows : value :=
  VArr [VObj [("id", VNum 1); ("name", VStr "a")];
        VObj [("id", VNum 2); ("name", VStr "b")]].

Section UpdateSql.
Context {E : Engine}.

(** The statement of [update] for given columns and condition. *)
Definition update_sql (table row columns where_ : value) : result string :=
  rbind (for_of "options.columns" columns) (fun cols =>
  rbind (rmap_list (fun column =>
                      rbind (get_prop row (to_String column))
                            (fun v => Ok [column; v])) cols) (fun values =>
  Ok (format "UPDATE ?? SET " (VArr [table]) false
      ++ format (join ", " (map (fun _ => "?? = ?") cols))
                (VArr (concat values)) false
      ++ _where where_))).


End UpdateSql.

(** *** What a computation does to the store *)

(** The computation hands nothing to the delegate. *)
Definition silent {A} (m : M A) : Prop :=
  forall st, sent (snd (m st)) = sent st.

(** The computation hands exactly one text to the delegate, after the
    texts handed before, or it hands none and ends with a thrown error. *)
Definition one_call {A} (m : M A) : Prop :=
  forall st, (exists sql, sent (snd (m st)) = push (sent st) sql)
             \/ (sent (snd (m st)) = sent st /\ exists e, fst (m st) = Throw e).

(** The computation leaves every object of the store as it is and
    creates none. *)
Definition keeps_objects {A} (m : M A) : Prop :=
  forall st, heap (snd (m st)) = heap st /\ next (snd (m st)) = next st.

(** *** The statements of insert, update and delete, as texts *)

(** One [column = value] assignment of an UPDATE. *)
Definition assignment (row : obj) (column : string) : string :=
  SqlString.escapeId (VStr column) ++ " = " ++ SqlString.escape (prop row column).

(** One parenthesized tuple of an INSERT: the values of the row under the
    columns, in the order of the columns. *)
Definition tuple (columns : list string) (row : obj) : string :=
  "(" ++ SqlString.escape (VArr (map (prop row) columns)) ++ ")".

Definition insert_text (table : value) (columns : list string)
  (rows : list obj) : string :=
  "INSERT INTO " ++ SqlString.escapeId table ++ "("
  ++ SqlString.escapeId (VArr (map VStr columns)) ++ ") VALUES"
  ++ join ", " (map (tuple columns) rows).

Definition update_text (table : value) (columns : list string) (row : obj)
  (where_ : value) : string :=
  "UPDATE " ++ SqlString.escapeId table ++ " SET "
  ++ join ", " (map (assignment row) columns) ++ _where where_.

(** The UPDATE of a table under the condition that [id] has the given
    value, and under no other. *)
Definition update_by_id_text (table : value) (set_clause : string)
  (id : value) : string :=
  "UPDATE " ++ SqlString.escapeId table ++ " SET " ++ set_clause
  ++ " WHERE " ++ where_fragment ("id", id).

(** The read [row[column]] stays with the row: the row has the column, or
    the name is not the name of a member of [Object.prototype], so that
    the read finds nothing and gives [undefined]. *)
Definition reads_own (row : obj) (column : string) : bool :=
  orb (has_key column row) (negb (is_prototype_member column)).

(** [rows] after [insert] made it an array. *)
Definition row_list (rows : value) : list value :=
  match rows with
  | VArr rs => rs
  | _ => [rows]
  end.

(** *** The batch of updateRows *)

(** An entry given by its [id], written out as a [row] and a [where];
    the row holds what a loop over the row built from the entry visits.
    An entry that has a property named [hasOwnProperty] cannot be asked
    for its [id] and is left as it is. *)
Definition explicit_entry (option : value) : value :=
  match option with
  | VObj o =>
      if has_key "hasOwnProperty" o then option
      else match lookup "id" o with
           | Some id => VObj [("row", VObj (reduce_row option));
                              ("where", VObj [("id", id)])]
           | None => option
           end
  | _ => option
  end.

(** Every column has as many WHEN fragments as queued values. *)
Definition aligned (c : sql_case) : Prop :=
  Forall (fun e => length (fst (snd e)) = length (snd (snd e))) c.

(** No two values of the list are equal for [===]. *)
Fixpoint distinct_values (l : list value) : Prop :=
  match l with
  | [] => True
  | x :: r => Forall (fun y => strict_eq x y = false) r /\ distinct_values r
  end.

Definition batch_invariant (acc : sql_case * where_acc) : Prop :=
  NoDup (map fst (fst acc))
  /\ aligned (fst acc)
  /\ NoDup (map fst (snd acc))
  /\ Forall (fun w => distinct_values (snd w)) (snd acc).

(** The character occurs in the text. *)
Fixpoint contains_char (c : ascii) (s : string) : bool :=
  match s with
  | EmptyString => false
  | String x r => orb (Ascii.eqb x c) (contains_char c r)
  end.



(** *** The statement of updateRows *)

Definition no_question (s : string) : bool := negb (contains_char "?" s).

(** A column of the batch with its branches: the condition text and the
    value of each row that set the column, in the order of the batch. *)
Definition batch_case : Type := string * list (string * value).

Definition when_fragment (condition : string) : string :=
  " WHEN " ++ condition ++ " THEN ? ".

(** The accumulator [updateRows] keeps for a column. *)
Definition accumulator_of (c : batch_case)
  : string * (list string * list value) :=
  (fst c, (map (fun b => when_fragment (fst b)) (snd c), map snd (snd c))).

Definition branch_text (b : string * value) : string :=
  " WHEN " ++ fst b ++ " THEN " ++ SqlString.escape (snd b) ++ " ".

Definition case_text (c : batch_case) : string :=
  " " ++ SqlString.escapeId (VStr (fst c)) ++ " = CASE "
  ++ join " " (map branch_text (snd c))
  ++ " ELSE " ++ SqlString.escapeId (VStr (fst c)) ++ " END ".

Definition updateRows_text (table : value) (cases : list batch_case)
  (WHERE : where_acc) : string :=
  "UPDATE " ++ SqlString.escapeId table ++ " SET "
  ++ join " , " (map case_text cases)
  ++ _where (VObj (map (fun w => (fst w, VArr (snd w))) WHERE)).

Definition plain_case (c : batch_case) : Prop :=
  Forall (fun b => no_question (fst b) = true) (snd c).

(** *** The batch of updateRows, read entry by entry *)

(** An entry of the batch: the row with the columns to set, and the
    condition that selects the rows of the table it is for. *)
Definition batch_entry : Type := obj * obj.

Fixpoint distinct_keys (l : list string) : bool :=
  match l with
  | [] => true
  | k :: r => andb (negb (existsb (String.eqb k) r)) (distinct_keys r)
  end.

Definition is_object (v : value) : bool :=
  match v with VObj _ => true | _ => false end.

Definition as_object (v : value) : obj :=
  match v with VObj o => o | _ => [] end.

(** An element of the array that [updateRows] can read as an entry: an
    object (its keys differ from each other) that has no property named
    [hasOwnProperty] and that either has an [id] or holds an object as
    its [row] and an object as its [where]. *)
Definition proper_option (option : value) : bool :=
  match option with
  | VObj o =>
      andb (distinct_keys (map fst o))
           (andb (negb (has_key "hasOwnProperty" o))
                 (orb (has_key "id" o)
                      (andb (is_object (prop o "row"))
                            (is_object (prop o "where")))))
  | _ => false
  end.

(** The entry an element stands for: [{id, ...columns}] gives the columns
    as the row and [{id}] as the condition, [{row, where}] gives the two;
    the [id] decides. *)
Definition entry_of (option : value) : batch_entry :=
  match option with
  | VObj o =>
      match lookup "id" o with
      | Some id =>
          (filter (fun kv => negb (String.eqb (fst kv) "id")) o, [("id", id)])
      | None => (as_object (prop o "row"), as_object (prop o "where"))
      end
  | _ => ([], [])
  end.

(** The text of a WHERE clause over conditions, and of the same
    conditions behind a WHEN. *)
Definition where_text (conditions : obj) : string :=
  match conditions with
  | [] => ""
  | _ => " WHERE " ++ join " AND " (map where_fragment conditions)
  end.

Definition condition_text (conditions : obj) : string :=
  match conditions with
  | [] => ""
  | _ => " " ++ join " AND " (map where_fragment conditions)
  end.

(** A key that is kept where it is first set and that [{}] does not
    answer to: no array index (these are enumerated first, in numeric
    order) and no name of a member of [Object.prototype]. *)
Definition plain_key (k : string) : bool :=
  andb (match array_index k with Some _ => false | None => true end)
       (negb (is_prototype_member k)).

(** A value that [===] compares by what it holds. *)
Definition is_scalar (v : value) : bool :=
  match v with VArr _ | VObj _ => false | _ => true end.

(** An entry whose columns and condition columns are plain keys, whose
    condition values are scalars, and whose condition, once rendered,
    holds no question mark (the text is spliced into the template that is
    formatted at the end). *)
Definition plain_entry (e : batch_entry) : bool :=
  andb (forallb (fun kv => plain_key (fst kv)) (fst e))
       (andb (forallb (fun kv => andb (plain_key (fst kv)) (is_scalar (snd kv)))
                      (snd e))
             (no_question (condition_text (snd e)))).

(** The keys of a list, each where it is first met. *)
Fixpoint first_seen (l : list string) : list string :=
  match l with
  | [] => []
  | k :: r => k :: filter (fun k' => negb (String.eqb k' k)) (first_seen r)
  end.

(** The values of a list without those met before, for [===]. *)
Fixpoint distinct (l : list value) : list value :=
  match l with
  | [] => []
  | v :: r => v :: filter (fun v' => negb (strict_eq v v')) (distinct r)
  end.

(** What a list of keyed items holds under a key, in the order of the
    list. *)
Definition under {V} (k : string) (l : list (string * V)) : list V :=
  map snd (filter (fun kv => String.eqb (fst kv) k) l).

(** Every assignment of the batch, in the order of the batch: the column,
    with the condition of its entry and the value. *)
Definition assignments (batch : list batch_entry)
  : list (string * (string * value)) :=
  flat_map (fun e => map (fun kv => (fst kv, (condition_text (snd e), snd kv)))
                         (fst e)) batch.

(** Every condition of the batch, in the order of the batch. *)
Definition conditions (batch : list batch_entry) : list (string * value) :=
  flat_map snd batch.

(** The columns of the batch in the order in which they are first set,
    each with its branches in the order of the batch. *)
Definition cases_of (batch : list batch_entry) : list batch_case :=
  map (fun c => (c, under c (assignments batch)))
      (first_seen (map fst (assignments batch))).

(** The condition columns of the batch in the order in which they are
    first met, each with the distinct values it is given. *)
Definition conditions_of (batch : list batch_entry) : where_acc :=
  map (fun c => (c, distinct (under c (conditions batch))))
      (first_seen (map fst (conditions batch))).

(** The statement of the batch. *)
Definition batch_text (table : value) (batch : list batch_entry) : string :=
  "UPDATE " ++ SqlString.escapeId table ++ " SET "
  ++ join " , " (map case_text (cases_of batch))
  ++ where_text (map (fun w => (fst w, VArr (snd w))) (conditions_of batch)).

(** *** Filing values under keys *)

(** The step of a loop that files a value under its key in an object that
    starts empty: a key met for the first time is created with [init],
    then the value is added to what the key holds. *)
Definition file_under {W V} (add : W -> V -> W) (init : W)
  (acc : list (string * W)) (kv : string * V) : list (string * W) :=
  let acc := if has_key (fst kv) acc then acc else set_prop (fst kv) init acc in
  match lookup (fst kv) acc with
  | Some w => set_prop (fst kv) (add w (snd kv)) acc
  | None => acc
  end.

(** What the loop has filed in the end. *)
Definition filed {W V} (add : W -> V -> W) (init : W) (l : list (string * V))
  : list (string * W) :=
  map (fun k => (k, fold_left add (under k l) init)) (first_seen (map fst l)).

(** What a column accumulates from one branch, and what a condition
    column keeps of one value. *)
Definition add_branch (a : list string * list value) (b : string * value)
  : list string * list value :=
  (push (fst a) (when_fragment (fst b)), push (snd a) (snd b)).

Definition add_distinct (seen : list value) (v : value) : list value :=
  if existsb (fun x => strict_eq x v) seen then seen else push seen v.

End Spec.

(** ** Facts about strings and property tables *)

Module Facts.
Import Js.

Lemma append_assoc (a b c : string) : (a ++ b) ++ c = a ++ b ++ c.
Proof.
  induction a as [|x a IH]; cbn; [reflexivity|]. now rewrite IH.
Qed.

Lemma append_nil_r (a : string) : a ++ "" = a.
Proof.
  induction a as [|x a IH]; cbn; [reflexivity|]. now rewrite IH.
Qed.

End Facts.

(** ** Facts about property tables and the store *)

Module StoreFacts.
Import Js Operator Spec.

Section PropsFacts.
Context {V : Type}.

Lemma lookup_replace_key_same (k : string) (v : V) (o : list (string * V)) :
  has_key k o = true -> lookup k (replace_key k v o) = Some v.
Proof.
  unfold has_key. induction o as [|[k' v'] o IH]; cbn; [discriminate|].
  destruct (String.eqb k k') eqn:Hk; cbn; rewrite Hk; auto.
Qed.

Lemma lookup_replace_key_other (k k' : string) (v : V) (o : list (string * V)) :
  k <> k' -> lookup k (replace_key k' v o) = lookup k o.
Proof.
  intros Hne. induction o as [|[k2 v2] o IH]; cbn; [reflexivity|].
  destruct (String.eqb k' k2) eqn:Hk2; cbn.
  - apply String.eqb_eq in Hk2. subst k2.
    apply String.eqb_neq in Hne. now rewrite Hne.
  - now rewrite IH.
Qed.

Lemma lookup_insert_index_same (n : N) (k : string) (v : V)
  (o : list (string * V)) :
  has_key k o = false -> lookup k (insert_index n k v o) = Some v.
Proof.
  unfold has_key. induction o as [|[k' v'] o IH]; cbn.
  - now rewrite String.eqb_refl.
  - destruct (String.eqb k k') eqn:Hk; [discriminate|]. intros Ho.
    destruct (array_index k') as [m|].
    + destruct (N.ltb n m); cbn.
      * now rewrite String.eqb_refl.
      * rewrite Hk. auto.
    + cbn. now rewrite String.eqb_refl.
Qed.

Lemma lookup_insert_index_other (n : N) (k k' : string) (v : V)
  (o : list (string * V)) :
  k <> k' -> lookup k (insert_index n k' v o) = lookup k o.
Proof.
  intros Hne. apply String.eqb_neq in Hne.
  induction o as [|[k2 v2] o IH]; cbn.
  - now rewrite Hne.
  - destruct (array_index k2) as [m|].
    + destruct (N.ltb n m); cbn.
      * now rewrite Hne.
      * now rewrite IH.
    + cbn. now rewrite Hne.
Qed.

Lemma lookup_push_same (k : string) (v : V) (o : list (string * V)) :
  has_key k o = false -> lookup k (push o (k, v)) = Some v.
Proof.
  unfold has_key, push. induction o as [|[k' v'] o IH]; cbn.
  - now rewrite String.eqb_refl.
  - destruct (String.eqb k k'); [discriminate|auto].
Qed.

Lemma lookup_push_other (k k' : string) (v : V) (o : list (string * V)) :
  k <> k' -> lookup k (push o (k', v)) = lookup k o.
Proof.
  intros Hne. apply String.eqb_neq in Hne. unfold push.
  induction o as [|[k2 v2] o IH]; cbn.
  - now rewrite Hne.
  - now rewrite IH.
Qed.

Lemma lookup_set_prop_same (k : string) (v : V) (o : list (string * V)) :
  lookup k (set_prop k v o) = Some v.
Proof.
  unfold set_prop. destruct (has_key k o) eqn:Hk.
  - now apply lookup_replace_key_same.
  - destruct (array_index k).
    + now apply lookup_insert_index_same.
    + now apply lookup_push_same.
Qed.

Lemma lookup_set_prop_other (k k' : string) (v : V) (o : list (string * V)) :
  k <> k' -> lookup k (set_prop k' v o) = lookup k o.
Proof.
  intros Hne. unfold set_prop. destruct (has_key k' o).
  - now apply lookup_replace_key_other.
  - destruct (array_index k').
    + now apply lookup_insert_index_other.
    + now apply lookup_push_other.
Qed.

End PropsFacts.

Lemma prop_set_prop_same (k : string) (v : value) (o : obj) :
  prop (set_prop k v o) k = v.
Proof. unfold prop. now rewrite lookup_set_prop_same. Qed.

Lemma prop_set_prop_other (k k' : string) (v : value) (o : obj) :
  k <> k' -> prop (set_prop k' v o) k = prop o k.
Proof. intros H. unfold prop. now rewrite lookup_set_prop_other. Qed.

Lemma update_heap_same (l : loc) (o : obj) (h : loc -> obj) :
  update_heap l o h l = o.
Proof. unfold update_heap. now rewrite Nat.eqb_refl. Qed.

Lemma update_heap_other (l l' : loc) (o : obj) (h : loc -> obj) :
  l' <> l -> update_heap l o h l' = h l'.
Proof. intros H. unfold update_heap. apply Nat.eqb_neq in H. now rewrite H. Qed.

Lemma heap_set_field_same (l : loc) (k : string) (v : value) (st : store) :
  heap (set_field l k v st) l = set_prop k v (heap st l).
Proof. apply update_heap_same. Qed.

Lemma heap_set_field_other (l l' : loc) (k : string) (v : value) (st : store) :
  l' <> l -> heap (set_field l k v st) l' = heap st l'.
Proof. apply update_heap_other. Qed.

End StoreFacts.

(** ** Properties of the clause builders *)

Module ClauseTheory.
Import Js Operator Spec Facts.

(** One condition that is the last of the template. *)
Lemma scan_last_condition (kv : string * value) :
  SqlString.scan false (where_template (snd kv)) 0 [VStr (fst kv); snd kv]
  = where_fragment kv.
Proof.
  destruct kv as [k v]; destruct v; reflexivity.
Qed.

(** One condition followed by [AND] and the rest of the template. *)
Lemma scan_condition_and (kv : string * value) (rest : string)
  (vals : list value) :
  SqlString.scan false (where_template (snd kv) ++ " AND " ++ rest) 0
                 (VStr (fst kv) :: snd kv :: vals)
  = where_fragment kv ++ " AND " ++ SqlString.scan false rest 0 vals.
Proof.
  destruct kv as [k v]; destruct v;
    do 3 (cbn -[SqlString.escape_with SqlString.escapeId];
          rewrite ?append_assoc);
    reflexivity.
Qed.

Lemma scan_conditions (o : obj) :
  SqlString.scan false (join " AND " (where_templates o)) 0 (where_values o)
  = join " AND " (map where_fragment o).
Proof.
  induction o as [|kv o IH]; [reflexivity|].
  destruct o as [|kv' o'].
  - cbn [where_templates where_values map flat_map join app].
    apply scan_last_condition.
  - change (where_templates (kv :: kv' :: o'))
      with (where_template (snd kv) :: where_templates (kv' :: o')).
    change (where_values (kv :: kv' :: o'))
      with (VStr (fst kv) :: snd kv :: where_values (kv' :: o')).
    change (map where_fragment (kv :: kv' :: o'))
      with (where_fragment kv :: map where_fragment (kv' :: o')).
    change (join " AND " (where_template (snd kv) :: where_templates (kv' :: o')))
      with (where_template (snd kv) ++ " AND "
            ++ join " AND " (where_templates (kv' :: o'))).
    rewrite scan_condition_and, IH. reflexivity.
Qed.

(** C1. The WHERE builder: an absent spec and the empty object give the
    empty string; any other object gives [ WHERE ] followed by one fragment
    per key, in enumeration order, joined by [ AND ], the fragment being
    [`key` IN (...)] for an array, [`key` IS NULL] for [null] (and
    [undefined]) and [`key` = value] otherwise; [{a: 1, b: [2, 3]}] gives
    exactly the text of the specification. *)
Theorem where_builder_spec :
  _where VUndefined = ""
  /\ _where VNull = ""
  /\ _where (VObj []) = ""
  /\ (forall (kv : string * value) (o : obj),
        _where (VObj (kv :: o))
        = " WHERE " ++ join " AND " (map where_fragment (kv :: o)))
  /\ _where (VObj [("a", VNum 1); ("b", VArr [VNum 2; VNum 3])])
     = " WHERE `a` = 1 AND `b` IN (2, 3)".
Proof.
  repeat split; try reflexivity.
  intros kv o. rewrite <- scan_conditions. reflexivity.
Qed.

End ClauseTheory.


(** ** Properties of the named formatter *)

Module FormatTheory.
Import Js Operator Spec Facts.

Lemma named_match_name (values : obj) (n : string) :
  n <> "" ->
  named_match values (Some n)
  = match lookup n values with
    | Some v => SqlString.escape v
    | None => ":" ++ n
    end.
Proof. destruct n; [congruence|reflexivity]. Qed.

(** A colon that no word character follows is kept. *)
Lemma replace_named_open_colon (values : obj) (s : string) :
  starts_with_word s = false ->
  replace_named values s (Some "") = ":" ++ replace_named values s None.
Proof.
  destruct s as [|c r]; [reflexivity|].
  cbn [starts_with_word replace_named]. intros ->. reflexivity.
Qed.

(** Text without a placeholder goes through as it is. *)
Lemma replace_named_text (values : obj) (t s : string) :
  starts_with_word s = false ->
  no_placeholder t = true ->
  replace_named values (t ++ s) None = t ++ replace_named values s None
  /\ (starts_with_word t = false ->
      replace_named values (t ++ s) (Some "")
      = ":" ++ t ++ replace_named values s None).
Proof.
  intros Hs. induction t as [|c r IH]; intros Ht.
  - split; [reflexivity|]. intros _. now apply replace_named_open_colon.
  - cbn [no_placeholder] in Ht. apply andb_prop in Ht as [Hc Hr].
    destruct (IH Hr) as [IHnone IHopen].
    assert (Hnone : replace_named values (String c r ++ s) None
                    = String c r ++ replace_named values s None).
    { cbn [append replace_named named_match].
      destruct (Ascii.eqb c ":") eqn:Hcolon.
      - apply Ascii.eqb_eq in Hcolon. subst c.
        cbn [andb negb] in Hc. apply negb_true_iff in Hc.
        rewrite (IHopen Hc). now destruct (is_word ":").
      - rewrite IHnone. now destruct (is_word c). }
    split; [exact Hnone|].
    cbn [starts_with_word]. intros Hw.
    cbn [append replace_named]. rewrite Hw.
    cbn [append replace_named named_match] in Hnone.
    replace (match is_word c with true | false =>
               "" ++ (if Ascii.eqb c ":"
                      then replace_named values (r ++ s) (Some "")
                      else String c (replace_named values (r ++ s) None))
             end)
      with ("" ++ (if Ascii.eqb c ":"
                   then replace_named values (r ++ s) (Some "")
                   else String c (replace_named values (r ++ s) None)))
      in Hnone by now destruct (is_word c).
    cbn [named_match]. cbn [append] in Hnone |- *. now rewrite Hnone.
Qed.

(** A name is read to its end and replaced as a whole. *)
Lemma replace_named_name (values : obj) (n k s : string) :
  all_word n = true ->
  starts_with_word s = false ->
  replace_named values (n ++ s) (Some k)
  = named_match values (Some (k ++ n)) ++ replace_named values s None.
Proof.
  revert k. induction n as [|c n IH]; intros k Hn Hs.
  - rewrite append_nil_r. cbn [append].
    destruct s as [|d r].
    + cbn. now rewrite append_nil_r.
    + cbn [starts_with_word] in Hs. cbn [replace_named]. rewrite Hs.
      reflexivity.
  - cbn [all_word] in Hn. apply andb_prop in Hn as [Hc Hn].
    cbn [append replace_named]. rewrite Hc, (IH _ Hn Hs), append_assoc.
    reflexivity.
Qed.

Lemma template_of_no_word (pieces : list (string * string)) :
  starts_with_word (template_of pieces) = false.
Proof. destruct pieces; reflexivity. Qed.

Lemma starts_with_word_append (t s : string) :
  starts_with_word t = false -> starts_with_word s = false ->
  starts_with_word (t ++ s) = false.
Proof. destruct t; cbn; auto. Qed.

Lemma replace_named_pieces (values : obj) (pieces : list (string * string)) :
  forallb well_cut pieces = true ->
  replace_named values (template_of pieces) None
  = concat_strings (map (render values) pieces).
Proof.
  induction pieces as [|[n t] r IH]; [reflexivity|].
  cbn [forallb]. intros H. apply andb_prop in H as [Hp Hr].
  unfold well_cut in Hp. cbn [fst snd] in Hp.
  apply andb_prop in Hp as [Hne Hp]. apply andb_prop in Hp as [Hw Hp].
  apply andb_prop in Hp as [Hst Hnp].
  apply negb_true_iff in Hne, Hst. apply String.eqb_neq in Hne.
  cbn [template_of fst snd map concat_strings].
  change (":" ++ n ++ t ++ template_of r)
    with (String ":" (n ++ t ++ template_of r)).
  cbn [replace_named named_match]. replace (is_word ":") with false by reflexivity.
  cbn [Ascii.eqb Bool.eqb]. cbn [append].
  rewrite (replace_named_name values n "" (t ++ template_of r) Hw
             (starts_with_word_append _ _ Hst (template_of_no_word r))).
  cbn [append]. rewrite (named_match_name values n Hne).
  rewrite (proj1 (replace_named_text values t (template_of r)
                    (template_of_no_word r) Hnp)), (IH Hr).
  unfold render. cbn [fst snd].
  destruct (lookup n values); now rewrite !append_assoc.
Qed.

(** Without values every template stays as it is. *)
Lemma replace_named_no_values (s : string) :
  replace_named [] s None = s
  /\ forall k, replace_named [] s (Some k) = ":" ++ k ++ s.
Proof.
  assert (Hm : forall k, named_match [] (Some k) = ":" ++ k)
    by (intros [|c k]; reflexivity).
  induction s as [|c r [IHnone IHsome]].
  - split; [reflexivity|]. intros k. cbn [replace_named].
    now rewrite Hm, append_nil_r.
  - assert (Hnone : (if Ascii.eqb c ":" then replace_named [] r (Some "")
                     else String c (replace_named [] r None)) = String c r).
    { destruct (Ascii.eqb c ":") eqn:Hc.
      - apply Ascii.eqb_eq in Hc. subst c. now rewrite IHsome.
      - now rewrite IHnone. }
    split.
    + cbn [replace_named named_match]. cbn [append].
      destruct (is_word c); exact Hnone.
    + intros k. cbn [replace_named]. destruct (is_word c).
      * rewrite IHsome, append_assoc. reflexivity.
      * rewrite Hm, Hnone, append_assoc. reflexivity.
Qed.

Section Calls.
Context {E : Engine}.

(** The callback on an object that answers [hasOwnProperty] by the method
    it inherits. *)
Lemma named_match_call_inherited (values : obj) (key : option string) :
  has_key "hasOwnProperty" values = false ->
  named_match_call values key = Ok (named_match values key).
Proof.
  intros Hown. destruct key as [[|c k]|]; try reflexivity.
  cbn [named_match_call named_match hasOwnProperty]. rewrite Hown.
  cbn [rbind get_prop]. unfold has_key.
  destruct (lookup (String c k) values); reflexivity.
Qed.

Lemma replace_named_call_inherited (values : obj) (sql : string)
  (key : option string) :
  has_key "hasOwnProperty" values = false ->
  replace_named_call values sql key = Ok (replace_named values sql key).
Proof.
  intros Hown. revert key. induction sql as [|c r IH]; intros key.
  - now apply named_match_call_inherited.
  - cbn [replace_named_call replace_named].
    destruct key as [k|]; [destruct (is_word c); [apply IH|]|];
      rewrite (named_match_call_inherited values _ Hown), !IH;
      cbn [rbind]; destruct (Ascii.eqb c ":"); reflexivity.
Qed.

(** The callback on an object that has a property named
    [hasOwnProperty]: the property is called, and it is no function. *)
Lemma named_match_call_shadowed (values : obj) (c : ascii) (k : string) :
  has_key "hasOwnProperty" values = true ->
  named_match_call values (Some (String c k))
  = Throw (new_TypeError "values.hasOwnProperty is not a function").
Proof.
  intros Hown. cbn [named_match_call hasOwnProperty]. now rewrite Hown.
Qed.

(** Once a name is being read, the callback will run. *)
Lemma replace_named_call_name (values : obj) (sql : string) (c : ascii)
  (k : string) :
  has_key "hasOwnProperty" values = true ->
  replace_named_call values sql (Some (String c k))
  = Throw (new_TypeError "values.hasOwnProperty is not a function").
Proof.
  intros Hown. revert c k. induction sql as [|d r IH]; intros c k.
  - now apply named_match_call_shadowed.
  - cbn [replace_named_call]. destruct (is_word d).
    + cbn [append]. apply IH.
    + now rewrite (named_match_call_shadowed values c k Hown).
Qed.

Lemma replace_named_call_shadowed (values : obj) (sql : string) :
  has_key "hasOwnProperty" values = true ->
  replace_named_call values sql None
  = (if no_placeholder sql then Ok sql
     else Throw (new_TypeError "values.hasOwnProperty is not a function"))
  /\ replace_named_call values sql (Some "")
     = (if orb (starts_with_word sql) (negb (no_placeholder sql))
        then Throw (new_TypeError "values.hasOwnProperty is not a function")
        else Ok (":" ++ sql)).
Proof.
  intros Hown. induction sql as [|c r [IHnone IHopen]].
  - split; reflexivity.
  - assert (Hrest :
      rbind (if Ascii.eqb c ":"
             then replace_named_call values r (Some "")
             else rbind (replace_named_call values r None)
                        (fun rest => Ok (String c rest)))
            (fun rest => Ok rest)
      = (if no_placeholder (String c r) then Ok (String c r)
         else Throw (new_TypeError "values.hasOwnProperty is not a function"))).
    { cbn [no_placeholder]. destruct (Ascii.eqb c ":") eqn:Hc.
      - apply Ascii.eqb_eq in Hc. subst c. rewrite IHopen.
        destruct (starts_with_word r); [reflexivity|].
        cbn [orb andb negb]. destruct (no_placeholder r); reflexivity.
      - rewrite IHnone. cbn [andb negb].
        destruct (no_placeholder r); reflexivity. }
    split.
    + cbn [replace_named_call named_match_call rbind]. cbn [append].
      exact Hrest.
    + cbn [replace_named_call starts_with_word]. destruct (is_word c).
      * now apply replace_named_call_name.
      * cbn [named_match_call rbind orb].
        destruct (Ascii.eqb c ":");
          [destruct (replace_named_call values r (Some ""))
          |destruct (replace_named_call values r None)];
          cbn [rbind] in Hrest |- *;
          destruct (no_placeholder (String c r));
          cbn [negb]; congruence.
Qed.

(** C4. The call [format(sql, values)] with an object as values.  The
    claim holds for the objects that have no property named
    [hasOwnProperty]: each placeholder [:name] whose name is a key becomes
    the escaped value, each other placeholder stays, the text between
    them is kept, and with [{}] every template comes back as it is.  It
    fails for the objects that have such a property: the callback calls
    it, so that a template with a placeholder makes [format] throw a
    TypeError, whether the values have the name or not; only a template
    without placeholders still comes back.  [format("select :a",
    {hasOwnProperty: 1})] throws. *)
Theorem named_mode_calls_hasOwnProperty (stringifyObjects : bool) :
  format_call "select :a" (VObj [("hasOwnProperty", VNum 1)]) stringifyObjects
  = Throw (new_TypeError "values.hasOwnProperty is not a function")
  /\ (forall (values : obj) (sql : string),
        has_key "hasOwnProperty" values = true ->
        format_call sql (VObj values) stringifyObjects
        = if no_placeholder sql then Ok sql
          else Throw (new_TypeError "values.hasOwnProperty is not a function"))
  /\ (forall (values : obj) (t0 : string) (pieces : list (string * string)),
        has_key "hasOwnProperty" values = false ->
        no_placeholder t0 = true ->
        forallb well_cut pieces = true ->
        format_call (t0 ++ template_of pieces) (VObj values) stringifyObjects
        = Ok (t0 ++ concat_strings (map (render values) pieces)))
  /\ (forall sql : string, format_call sql (VObj []) stringifyObjects = Ok sql)
  /\ format_call "select :a" (VObj []) stringifyObjects = Ok "select :a".
Proof.
  split; [reflexivity|]. split; [|split; [|split]].
  - intros values sql Hown.
    exact (proj1 (replace_named_call_shadowed values sql Hown)).
  - intros values t0 pieces Hown Ht0 Hp. unfold format_call.
    rewrite (replace_named_call_inherited values _ None Hown).
    rewrite (proj1 (replace_named_text values t0 (template_of pieces)
                      (template_of_no_word pieces) Ht0)).
    now rewrite (replace_named_pieces values pieces Hp).
  - intros sql. unfold format_call.
    rewrite (replace_named_call_inherited [] sql None eq_refl).
    now rewrite (proj1 (replace_named_no_values sql)).
  - reflexivity.
Qed.

End Calls.

(** [select :a from :b] with [{a: 1}], and with
    [{a: 1, hasOwnProperty: 1}]. *)
Lemma named_mode_calls_hasOwnProperty_witness :
  @format_call headline_engine "select :a from :b" (VObj [("a", VNum 1)]) false
  = Ok "select 1 from :b"
  /\ @format_call headline_engine "select :a from :b"
       (VObj [("a", VNum 1); ("hasOwnProperty", VNum 1)]) false
     = Throw (mkError "TypeError" "values.hasOwnProperty is not a function"
                "TypeError: values.hasOwnProperty is not a function").
Proof.
  split.
  - exact (proj1 (proj2 (proj2 (@named_mode_calls_hasOwnProperty headline_engine false)))
             [("a", VNum 1)] "select "
             [("a", " from "); ("b", "")] eq_refl eq_refl eq_refl).
  - exact (proj1 (proj2 (@named_mode_calls_hasOwnProperty headline_engine false))
             [("a", VNum 1); ("hasOwnProperty", VNum 1)] "select :a from :b"
             eq_refl).
Defined.

End FormatTheory.

(** ** Properties of the operations *)

Module OperatorTheory.
Import Js Operator Spec Facts StoreFacts ClauseTheory.

Section WithDelegate.
Context {E : Engine} {D : Delegate}.

Lemma rbind_throw {A B} (r : result A) (k : A -> result B) (e : error) :
  r = Throw e -> rbind r k = Throw e.
Proof. intros ->. reflexivity. Qed.

(** [query] hands the text to the delegate once, whatever comes back, and
    leaves the objects of the store alone. *)
Lemma query_store (sql : string) (st : store) :
  snd (query sql None st) = after_send sql st.
Proof.
  unfold query, try_catch, bind, call_delegate, lift, ret, throw, after_send.
  cbn. destruct (_query sql) as [rows|err]; cbn; [|reflexivity].
  destruct (get_prop rows "length"); reflexivity.
Qed.

Lemma order_entry_skipped (v : value) :
  is_order_entry v = false -> order_entry v = [].
Proof. destruct v; cbn; congruence. Qed.

Lemma flat_map_order_entry_filter (l : list value) :
  flat_map order_entry l = flat_map order_entry (filter is_order_entry l).
Proof.
  induction l as [|v l IH]; [reflexivity|].
  cbn [flat_map filter]. destruct (is_order_entry v) eqn:Hv.
  - cbn [flat_map]. now rewrite IH.
  - now rewrite (order_entry_skipped v Hv).
Qed.

Lemma flat_map_order_entry_none (l : list value) :
  forallb (fun v => negb (is_order_entry v)) l = true ->
  flat_map order_entry l = [].
Proof.
  induction l as [|v l IH]; [reflexivity|].
  cbn [forallb flat_map]. intros H.
  apply andb_prop in H as [Hv Hl].
  apply negb_true_iff in Hv.
  now rewrite (order_entry_skipped v Hv), IH.
Qed.

(** C10. An ORDER BY list that is empty, or holds no string and no array,
    gives the bare fragment [ ORDER BY ] and not the empty string; entries
    that are neither strings nor arrays are skipped; so a [select] whose
    options hold such a list (and no limit) sends a statement that ends in
    the bare keyword. *)
Theorem orders_dangling_keyword :
  _orders (VArr []) = Ok " ORDER BY "
  /\ (forall l : list value,
        forallb (fun v => negb (is_order_entry v)) l = true ->
        _orders (VArr l) = Ok " ORDER BY ")
  /\ (forall l : list value,
        _orders (VArr l) = _orders (VArr (filter is_order_entry l)))
  /\ (forall (table : value) (l : loc) (entries : list value) (st : store),
        forallb (fun v => negb (is_order_entry v)) entries = true ->
        prop (heap st l) "orders" = VArr entries ->
        truthy (prop (heap st l) "limit") = false ->
        sent (snd (select table (Some l) st))
        = push (sent st)
               (_selectColumns table (prop (heap st l) "columns")
                ++ _where (prop (heap st l) "where") ++ " ORDER BY ")).
Proof.
  split; [reflexivity|]. split; [|split].
  - intros l Hl. unfold _orders. cbn.
    now rewrite (flat_map_order_entry_none l Hl).
  - intros l. unfold _orders. cbn.
    now rewrite <- flat_map_order_entry_filter.
  - intros table l entries st Hall Horders Hlimit.
    unfold select, bind, or_fresh, ret, read, lift.
    fold (prop (heap st l) "columns") (prop (heap st l) "where")
         (prop (heap st l) "orders") (prop (heap st l) "limit")
         (prop (heap st l) "offset").
    rewrite Horders. unfold _orders. cbn [truthy negb is_string for_of rbind].
    rewrite (flat_map_order_entry_none entries Hall).
    cbn [join]. rewrite query_store. unfold _limit. rewrite Hlimit.
    cbn [negb orb after_send sent]. now rewrite !append_nil_r.
Qed.

Lemma join_cons (sep x : string) (l : list string) :
  join sep (x :: l) = x ++ concat_strings (map (fun y => sep ++ y) l).
Proof.
  revert x. induction l as [|y l IH]; intros x.
  - cbn. now rewrite append_nil_r.
  - change (join sep (x :: y :: l)) with (x ++ sep ++ join sep (y :: l)).
    rewrite IH. cbn [map concat_strings]. now rewrite append_assoc.
Qed.

Lemma valid_lock_inv (o : obj) :
  valid_lock o = true ->
  truthy (prop o "tableName") = true
  /\ exists s, prop o "lockType" = VStr s
               /\ is_lock_type (toUpperCase s) = true.
Proof.
  unfold valid_lock. intros H. apply andb_prop in H as [Hn Ht].
  split; [exact Hn|].
  destruct (prop o "lockType"); try discriminate. eauto.
Qed.

Lemma lock_type_nonempty (s : string) :
  is_lock_type (toUpperCase s) = true -> truthy (VStr s) = true.
Proof. destruct s; [discriminate|reflexivity]. Qed.

(** One accepted request, met at position [i] of the loop. *)
Lemma lock_entries_valid (i : nat) (o : obj) (rest : list value) :
  valid_lock o = true ->
  lock_entries i (VObj o :: rest)
  = rbind (lock_entries (S i) rest) (fun more =>
      Ok (((if Nat.ltb 0 i then ", " else "") ++ lock_clause o) ++ more)).
Proof.
  intros Hv. destruct (valid_lock_inv o Hv) as [Hn [s [Hs Hu]]].
  cbn [lock_entries destructurable is_nullish get_prop rbind].
  fold (prop o "tableName") (prop o "lockType") (prop o "tableAlias").
  rewrite Hn, Hs, (lock_type_nonempty s Hu).
  cbn [negb call_toUpperCase rbind]. rewrite Hu. cbn [negb].
  unfold lock_clause. rewrite Hs. reflexivity.
Qed.

Lemma lock_entries_tail (i : nat) (os : list obj) :
  forallb valid_lock os = true ->
  lock_entries (S i) (map VObj os)
  = Ok (concat_strings (map (fun c => ", " ++ c) (map lock_clause os))).
Proof.
  revert i. induction os as [|o os IH]; intros i Hall; [reflexivity|].
  cbn [forallb] in Hall. apply andb_prop in Hall as [Ho Hos].
  cbn [map]. rewrite (lock_entries_valid (S i) o _ Ho), (IH (S i) Hos).
  reflexivity.
Qed.

(** C6, as the code has it. The lock type is accepted whatever its case
    (the test is made on its upper-case form) and is written into the
    statement exactly as the caller gave it: a non-empty list of accepted
    requests gives [LOCK TABLES ] followed by the clauses, joined by a comma
    and a space, and a semicolon; [{tableName: 't', lockType: 'read'}] gives
    the statement with [read] in lower case. *)
Theorem lock_type_as_given (o : obj) (os : list obj) :
  forallb valid_lock (o :: os) = true ->
  hash_locks (map VObj (o :: os))
  = Ok ("LOCK TABLES " ++ join ", " (map lock_clause (o :: os)) ++ ";").
Proof.
  intros Hall. cbn [forallb] in Hall. apply andb_prop in Hall as [Ho Hos].
  unfold hash_locks. cbn [map length Nat.eqb].
  rewrite (lock_entries_valid 0 o _ Ho), (lock_entries_tail 0 os Hos).
  cbn [rbind Nat.ltb Nat.leb]. rewrite join_cons. reflexivity.
Qed.


Lemma get_prop_defined (v : value) (k : string) :
  is_nullish v = false -> exists x, get_prop v k = Ok x.
Proof.
  destruct v; cbn; try discriminate; intros _; eauto.
  - destruct (String.eqb k "length"); [eauto|].
    destruct (array_index k); eauto.
  - destruct (String.eqb k "length"); [eauto|].
    destruct (array_index k); eauto.
Qed.


Lemma query_resolves (sql : string) (rows : value) (st : store) :
  _query sql = Ok rows -> is_nullish rows = false ->
  fst (query sql None st) = Ok rows.
Proof.
  intros Hq Hn. unfold query, try_catch, bind, call_delegate, lift, ret.
  rewrite Hq. destruct (get_prop_defined rows "length" Hn) as [x ->].
  reflexivity.
Qed.

(** C8, as the code has it. [count] sends, byte for byte, the text
    "SELECT COUNT(*) as count FROM " followed by the escaped table and the
    WHERE fragment, with [as] in lower case, and returns the [count] field
    of row 0 of what the delegate resolves with. *)
Theorem count_statement (table where_ : value) (st : store) :
  sent (snd (count table where_ st))
  = push (sent st)
         ("SELECT COUNT(*) as count FROM " ++ SqlString.escapeId table
          ++ _where where_)
  /\ (forall rows : value,
        _query ("SELECT COUNT(*) as count FROM " ++ SqlString.escapeId table
                ++ _where where_) = Ok rows ->
        is_nullish rows = false ->
        fst (count table where_ st)
        = rbind (get_prop rows "0") (fun row => get_prop row "count"))
  /\ (forall (row : obj) (rest : list value),
        _query ("SELECT COUNT(*) as count FROM " ++ SqlString.escapeId table
                ++ _where where_) = Ok (VArr (VObj row :: rest)) ->
        fst (count table where_ st) = Ok (prop row "count")).
Proof.
  assert (Hrun : forall rows : value,
            _query ("SELECT COUNT(*) as count FROM " ++ SqlString.escapeId table
                    ++ _where where_) = Ok rows ->
            is_nullish rows = false ->
            fst (count table where_ st)
            = rbind (get_prop rows "0") (fun row => get_prop row "count")).
  { intros rows Hrows Hnn. unfold count, bind.
    change (format "SELECT COUNT(*) as count FROM ??" (VArr [table]) false
            ++ _where where_)
      with ("SELECT COUNT(*) as count FROM " ++ SqlString.escapeId table
            ++ _where where_).
    pose proof (query_resolves _ rows st Hrows Hnn) as Hres.
    destruct (query _ None st) as [[rows'|e'] st']; cbn [fst] in Hres;
      [|discriminate].
    injection Hres as ->.
    unfold lift. destruct (get_prop rows "0") as [row|e]; [|reflexivity].
    cbn [rbind]. destruct (get_prop row "count"); reflexivity. }
  split; [|split].
  - unfold count, bind.
    change (format "SELECT COUNT(*) as count FROM ??" (VArr [table]) false
            ++ _where where_)
      with ("SELECT COUNT(*) as count FROM " ++ SqlString.escapeId table
            ++ _where where_).
    pose proof (query_store ("SELECT COUNT(*) as count FROM "
                             ++ SqlString.escapeId table ++ _where where_) st)
      as Hst.
    destruct (query _ None st) as [[rows|e] st']; cbn [snd] in Hst; subst st';
      [|reflexivity].
    unfold lift. destruct (get_prop rows "0") as [row|e]; [|reflexivity].
    destruct (get_prop row "count"); reflexivity.
  - exact Hrun.
  - intros row rest Hrows. rewrite (Hrun _ Hrows eq_refl). reflexivity.
Qed.


Lemma default_columns_run (l : loc) (source : value) (st : store) :
  default_columns l source st
  = if truthy (prop (heap st l) "columns") then (Ok tt, st)
    else match object_keys source with
         | Ok keys => (Ok tt, set_field l "columns" (VArr (map VStr keys)) st)
         | Throw e => (Throw e, st)
         end.
Proof.
  unfold default_columns, bind, read, lift, ret, write.
  fold (prop (heap st l) "columns").
  destruct (truthy (prop (heap st l) "columns")); cbn [negb]; [reflexivity|].
  destruct (object_keys source); reflexivity.
Qed.

Lemma default_where_run (l : loc) (row : value) (st : store) :
  default_where l row st
  = if truthy (prop (heap st l) "where") then (Ok tt, st)
    else match in_op "id" row with
         | Ok true =>
             match get_prop row "id" with
             | Ok id => (Ok tt, set_field l "where" (VObj [("id", id)]) st)
             | Throw e => (Throw e, st)
             end
         | Ok false => (Throw (new_Error update_no_condition), st)
         | Throw e => (Throw e, st)
         end.
Proof.
  unfold default_where, bind, read, lift, ret, write, throw.
  fold (prop (heap st l) "where").
  destruct (truthy (prop (heap st l) "where")); cbn [negb]; [reflexivity|].
  destruct (in_op "id" row) as [[|]|]; reflexivity.
Qed.

(** What [select] does after its options are settled. *)
Lemma select_store (table : value) (l : loc) (st : store) :
  heap (snd (select table (Some l) st)) = heap st
  /\ next (snd (select table (Some l) st)) = next st.
Proof.
  unfold select, bind, or_fresh, ret, read, lift.
  destruct (_orders _); [|split; reflexivity].
  rewrite query_store. split; reflexivity.
Qed.

Lemma get_store (table where_ : value) (l : loc) (st : store) :
  heap (snd (get table where_ (Some l) st))
  = heap (set_field l "offset" (VNum 0)
            (set_field l "limit" (VNum 1) (set_field l "where" where_ st))).
Proof.
  unfold get, bind, or_fresh, ret, write.
  fold (set_field l "where" where_ st).
  fold (set_field l "limit" (VNum 1) (set_field l "where" where_ st)).
  fold (set_field l "offset" (VNum 0)
          (set_field l "limit" (VNum 1) (set_field l "where" where_ st))).
  pose proof (proj1 (select_store table l
    (set_field l "offset" (VNum 0)
       (set_field l "limit" (VNum 1) (set_field l "where" where_ st))))) as H.
  destruct (select table (Some l) _) as [[rows|e] st']; cbn [snd] in H |- *.
  - unfold lift. cbn [snd]. exact H.
  - exact H.
Qed.

Lemma insert_store (table rows : value) (l : loc) (st : store) :
  heap (snd (insert table rows (Some l) st))
  = heap (snd (default_columns l (first_row rows) st)).
Proof.
  unfold insert, bind, or_fresh, ret. fold (first_row rows).
  destruct (default_columns l (first_row rows) st) as [[[]|e] st1];
    [|reflexivity].
  unfold read, lift.
  destruct (rmap_list _ _); [|reflexivity].
  now rewrite query_store.
Qed.

Lemma update_store (table row : value) (l : loc) (st : store) :
  heap (snd (update table row (Some l) st))
  = heap (snd ((default_columns l row ;;; default_where l row) st)).
Proof.
  unfold update, bind, or_fresh, ret.
  destruct (default_columns l row st) as [[[]|e] st1]; [|reflexivity].
  destruct (default_where l row st1) as [[[]|e] st2]; [|reflexivity].
  unfold read, lift.
  destruct (for_of _); [|reflexivity].
  destruct (rmap_list _ _); [|reflexivity].
  now rewrite query_store.
Qed.

(** C9. The options object of the caller is written: after [get] it
    holds the [where] argument, [limit] 1 and [offset] 0; after [insert]
    and after [update] it holds the [columns] that were defaulted, and
    after [update] the [where] that was defaulted from the [id] of the row;
    every other object of the store is left as it was. *)
Theorem options_object_mutated (table : value) (l : loc) (st : store) :
  (forall where_ : value,
     lookup "where" (heap (snd (get table where_ (Some l) st)) l) = Some where_
     /\ lookup "limit" (heap (snd (get table where_ (Some l) st)) l)
        = Some (VNum 1)
     /\ lookup "offset" (heap (snd (get table where_ (Some l) st)) l)
        = Some (VNum 0))
  /\ (forall (rows : value) (keys : list string),
        truthy (prop (heap st l) "columns") = false ->
        object_keys (first_row rows) = Ok keys ->
        lookup "columns" (heap (snd (insert table rows (Some l) st)) l)
        = Some (VArr (map VStr keys)))
  /\ (forall (row : value) (keys : list string),
        truthy (prop (heap st l) "columns") = false ->
        object_keys row = Ok keys ->
        lookup "columns" (heap (snd (update table row (Some l) st)) l)
        = Some (VArr (map VStr keys)))
  /\ (forall (r : obj) (id : value),
        truthy (prop (heap st l) "where") = false ->
        lookup "id" r = Some id ->
        lookup "where" (heap (snd (update table (VObj r) (Some l) st)) l)
        = Some (VObj [("id", id)]))
  /\ (forall (l' : loc) (where_ row rows : value),
        l' <> l ->
        heap (snd (get table where_ (Some l) st)) l' = heap st l'
        /\ heap (snd (insert table rows (Some l) st)) l' = heap st l'
        /\ heap (snd (update table row (Some l) st)) l' = heap st l').
Proof.
  split; [|split; [|split; [|split]]].
  - intros where_. rewrite get_store, !heap_set_field_same.
    repeat split.
    + rewrite !lookup_set_prop_other by discriminate.
      apply lookup_set_prop_same.
    + rewrite lookup_set_prop_other by discriminate.
      apply lookup_set_prop_same.
    + apply lookup_set_prop_same.
  - intros rows keys Hc Hk.
    rewrite insert_store, default_columns_run, Hc, Hk. cbn [snd].
    rewrite heap_set_field_same. apply lookup_set_prop_same.
  - intros row keys Hc Hk.
    rewrite update_store. unfold bind.
    rewrite default_columns_run, Hc, Hk, default_where_run.
    assert (Hl : lookup "columns"
                   (heap (set_field l "columns" (VArr (map VStr keys)) st) l)
                 = Some (VArr (map VStr keys))).
    { rewrite heap_set_field_same. apply lookup_set_prop_same. }
    destruct (truthy (prop (heap (set_field l "columns" _ st) l) "where"));
      [exact Hl|].
    destruct (in_op "id" row) as [[|]|]; try exact Hl.
    destruct (get_prop row "id"); [|exact Hl]. cbn [snd].
    rewrite heap_set_field_same, lookup_set_prop_other by discriminate.
    exact Hl.
  - intros r id Hw Hid.
    rewrite update_store. unfold bind. rewrite default_columns_run.
    assert (Hin : in_op "id" (VObj r) = Ok true)
      by (cbn; unfold has_key; now rewrite Hid).
    assert (Hget : get_prop (VObj r) "id" = Ok id)
      by (cbn; now rewrite Hid).
    destruct (truthy (prop (heap st l) "columns")).
    + rewrite default_where_run, Hw, Hin, Hget. cbn [snd].
      rewrite heap_set_field_same. apply lookup_set_prop_same.
    + cbn [object_keys]. rewrite default_where_run.
      rewrite heap_set_field_same, prop_set_prop_other by discriminate.
      rewrite Hw, Hin, Hget. cbn [snd].
      rewrite heap_set_field_same. apply lookup_set_prop_same.
  - intros l' where_ row rows Hne. repeat split.
    + rewrite get_store, !heap_set_field_other by exact Hne. reflexivity.
    + rewrite insert_store, default_columns_run.
      destruct (truthy _); [reflexivity|].
      destruct (object_keys _); [|reflexivity].
      cbn [snd]. now rewrite heap_set_field_other.
    + rewrite update_store. unfold bind. rewrite default_columns_run.
      destruct (truthy (prop (heap st l) "columns")).
      * rewrite default_where_run. destruct (truthy _); [reflexivity|].
        destruct (in_op "id" row) as [[|]|]; try reflexivity.
        destruct (get_prop row "id"); [|reflexivity].
        cbn [snd]. now rewrite heap_set_field_other.
      * destruct (object_keys row); [|reflexivity].
        rewrite default_where_run. destruct (truthy _).
        -- cbn [snd]. now rewrite heap_set_field_other.
        -- destruct (in_op "id" row) as [[|]|];
             try (cbn [snd]; now rewrite heap_set_field_other).
           destruct (get_prop row "id"); cbn [snd];
             now rewrite ?heap_set_field_other by exact Hne.
Qed.

Lemma or_fresh_settle (options : option loc) (st : store) :
  or_fresh options st = (Ok (fst (settle options st)), snd (settle options st)).
Proof. destruct options; reflexivity. Qed.

Lemma where_falsy (w : value) : truthy w = false -> _where w = "".
Proof. intros H. unfold _where. now rewrite H. Qed.

Lemma where_object (kv : string * value) (o : obj) :
  _where (VObj (kv :: o))
  = " WHERE " ++ join " AND " (map where_fragment (kv :: o)).
Proof. rewrite <- scan_conditions. reflexivity. Qed.

Lemma assignments_of_object (columns : list string) (r : obj) :
  rmap_list (fun column => rbind (get_prop (VObj r) (to_String column))
                                 (fun v => Ok [column; v]))
            (map VStr columns)
  = Ok (map (fun c => [VStr c; prop r c]) columns).
Proof.
  induction columns as [|c columns IH]; [reflexivity|].
  cbn [map rmap_list]. rewrite IH. reflexivity.
Qed.

Lemma scan_assignment_last (r : obj) (c : string) :
  SqlString.scan false "?? = ?" 0 [VStr c; prop r c] = assignment r c.
Proof. reflexivity. Qed.

Lemma scan_assignment_then (r : obj) (c : string) (rest : string)
  (vals : list value) :
  SqlString.scan false ("?? = ?" ++ ", " ++ rest) 0 (VStr c :: prop r c :: vals)
  = assignment r c ++ ", " ++ SqlString.scan false rest 0 vals.
Proof.
  unfold assignment.
  do 3 (cbn -[SqlString.escape SqlString.escapeId]; rewrite ?append_assoc).
  reflexivity.
Qed.

Lemma scan_assignments (r : obj) (columns : list string) :
  SqlString.scan false (join ", " (map (fun _ => "?? = ?") columns)) 0
                 (concat (map (fun c => [VStr c; prop r c]) columns))
  = join ", " (map (assignment r) columns).
Proof.
  induction columns as [|c columns IH]; [reflexivity|].
  destruct columns as [|c' columns'].
  - apply scan_assignment_last.
  - change (join ", " (map (fun _ => "?? = ?") (c :: c' :: columns')))
      with ("?? = ?" ++ ", "
            ++ join ", " (map (fun _ => "?? = ?") (c' :: columns'))).
    change (concat (map (fun c => [VStr c; prop r c]) (c :: c' :: columns')))
      with (VStr c :: prop r c
            :: concat (map (fun c => [VStr c; prop r c]) (c' :: columns'))).
    change (join ", " (map (assignment r) (c :: c' :: columns')))
      with (assignment r c ++ ", "
            ++ join ", " (map (assignment r) (c' :: columns'))).
    rewrite scan_assignment_then, IH. reflexivity.
Qed.

Lemma update_sql_object (table : value) (columns : list string) (r : obj)
  (where_ : value) :
  update_sql table (VObj r) (VArr (map VStr columns)) where_
  = Ok (update_text table columns r where_).
Proof.
  unfold update_sql. cbn [for_of rbind].
  rewrite assignments_of_object. cbn [rbind]. f_equal.
  unfold update_text, format. cbn [SqlString.format].
  rewrite (map_map VStr (fun _ : value => "?? = ?")). cbv beta.
  rewrite scan_assignments.
  cbn -[SqlString.escapeId join _where]. rewrite ?append_assoc. reflexivity.
Qed.

(** [update], once its options object is at [l]: the defaults, then the
    statement for the columns and the condition the object then holds. *)
Lemma update_run (table row : value) (options : option loc) (st : store) :
  update table row options st
  = let l := fst (settle options st) in
    match (default_columns l row ;;; default_where l row) (snd (settle options st)) with
    | (Ok _, st2) =>
        match update_sql table row (prop (heap st2 l) "columns")
                         (prop (heap st2 l) "where") with
        | Ok sql => query sql None st2
        | Throw e => (Throw e, st2)
        end
    | (Throw e, st1) => (Throw e, st1)
    end.
Proof.
  unfold update. unfold bind at 1. rewrite or_fresh_settle.
  cbv zeta. unfold bind.
  destruct (default_columns _ row _) as [[[]|e] st1]; [|reflexivity].
  destruct (default_where _ row st1) as [[[]|e] st2]; [|reflexivity].
  unfold read, lift, update_sql.
  fold (prop (heap st2 (fst (settle options st))) "columns").
  fold (prop (heap st2 (fst (settle options st))) "where").
  destruct (for_of _); [|reflexivity]. cbn [rbind].
  destruct (rmap_list _ _); reflexivity.
Qed.

Lemma in_op_false_keys (row : value) :
  in_op "id" row = Ok false -> exists keys, object_keys row = Ok keys.
Proof. destruct row; cbn; try discriminate; eauto. Qed.

(** [update] without a condition and without an [id]: the error, and
    nothing sent. *)
Lemma update_without_condition (table row : value) (options : option loc)
  (st : store) :
  where_absent options st ->
  in_op "id" row = Ok false ->
  fst (update table row options st) = Throw (new_Error update_no_condition)
  /\ sent (snd (update table row options st)) = sent st.
Proof.
  unfold where_absent. intros Hw Hin.
  assert (Hsent : sent (snd (settle options st)) = sent st)
    by (destruct options; reflexivity).
  rewrite update_run. cbv zeta. unfold bind.
  rewrite default_columns_run.
  destruct (in_op_false_keys row Hin) as [keys Hkeys].
  destruct (truthy (prop _ "columns")).
  - rewrite default_where_run, Hw, Hin. split; [reflexivity|exact Hsent].
  - rewrite Hkeys, default_where_run.
    rewrite heap_set_field_same, prop_set_prop_other by discriminate.
    rewrite Hw, Hin. split; [reflexivity|exact Hsent].
Qed.

Lemma sent_settle (options : option loc) (st : store) :
  sent (snd (settle options st)) = sent st.
Proof. destruct options; reflexivity. Qed.

(** The defaults of [update] for a row with an [id] and options without
    a [where]. *)
Lemma update_defaults_with_id (r : obj) (id : value) (l : loc) (st : store) :
  truthy (prop (heap st l) "where") = false ->
  lookup "id" r = Some id ->
  (default_columns l (VObj r) ;;; default_where l (VObj r)) st
  = (Ok tt,
     set_field l "where" (VObj [("id", id)])
       (if truthy (prop (heap st l) "columns") then st
        else set_field l "columns" (VArr (map VStr (map fst r))) st)).
Proof.
  intros Hw Hid.
  assert (Hin : in_op "id" (VObj r) = Ok true)
    by (cbn; unfold has_key; now rewrite Hid).
  assert (Hget : get_prop (VObj r) "id" = Ok id)
    by (cbn; now rewrite Hid).
  unfold bind. rewrite default_columns_run.
  destruct (truthy (prop (heap st l) "columns")).
  - now rewrite default_where_run, Hw, Hin, Hget.
  - cbn [object_keys for_in]. rewrite default_where_run.
    rewrite heap_set_field_same, prop_set_prop_other by discriminate.
    now rewrite Hw, Hin, Hget.
Qed.

Lemma update_head (table : value) :
  format "UPDATE ?? SET " (VArr [table]) false
  = "UPDATE " ++ SqlString.escapeId table ++ " SET ".
Proof.
  unfold format. cbn -[SqlString.escapeId]. now rewrite ?append_assoc.
Qed.

Lemma where_id (id : value) :
  _where (VObj [("id", id)]) = " WHERE " ++ where_fragment ("id", id).
Proof.
  rewrite (where_object ("id", id) []). cbn [map join]. reflexivity.
Qed.

(** C3. With no [where] among the options: when [id] is not a key of
    the row, [update] throws the error that no condition can be detected,
    before anything is sent.  When the row has an [id], the options object
    gets [{id: row.id}] as its [where], and this is the condition of the
    statement: whatever the columns are, [update] either fails on them
    before anything is sent or sends one text, the UPDATE of the table
    that ends in the WHERE clause on the [id] of the row and no other;
    with no columns among the options it sends the text that sets every
    key of the row, and with a list of column names the text that sets
    these columns. *)
Theorem update_condition_default (table row : value) (options : option loc)
  (st : store) :
  where_absent options st ->
  (in_op "id" row = Ok false ->
   fst (update table row options st) = Throw (new_Error update_no_condition)
   /\ sent (snd (update table row options st)) = sent st)
  /\ (forall (r : obj) (id : value),
        row = VObj r ->
        lookup "id" r = Some id ->
        lookup "where"
               (heap (snd (update table row options st)) (fst (settle options st)))
        = Some (VObj [("id", id)])
        /\ (((exists e, fst (update table row options st) = Throw e)
             /\ sent (snd (update table row options st)) = sent st)
            \/ exists set_clause : string,
                 sent (snd (update table row options st))
                 = push (sent st) (update_by_id_text table set_clause id))
        /\ (truthy (prop (heap (snd (settle options st)) (fst (settle options st)))
                         "columns") = false ->
            sent (snd (update table row options st))
            = push (sent st)
                   (update_by_id_text table
                      (join ", " (map (assignment r) (map fst r))) id))
        /\ (forall columns : list string,
              prop (heap (snd (settle options st)) (fst (settle options st)))
                   "columns" = VArr (map VStr columns) ->
              forallb (reads_own r) columns = true ->
              sent (snd (update table row options st))
              = push (sent st)
                     (update_by_id_text table
                        (join ", " (map (assignment r) columns)) id))).
Proof.
  intros Hw. split.
  - intros Hin. now apply update_without_condition.
  - intros r id -> Hid. unfold where_absent in Hw.
    set (l := fst (settle options st)) in *.
    set (st0 := snd (settle options st)) in *.
    assert (Hrun : update table (VObj r) options st
                   = match update_sql table (VObj r)
                             (if truthy (prop (heap st0 l) "columns")
                              then prop (heap st0 l) "columns"
                              else VArr (map VStr (map fst r)))
                             (VObj [("id", id)]) with
                     | Ok sql =>
                         query sql None
                           (set_field l "where" (VObj [("id", id)])
                              (if truthy (prop (heap st0 l) "columns") then st0
                               else set_field l "columns"
                                      (VArr (map VStr (map fst r))) st0))
                     | Throw e =>
                         (Throw e,
                          set_field l "where" (VObj [("id", id)])
                            (if truthy (prop (heap st0 l) "columns") then st0
                             else set_field l "columns"
                                    (VArr (map VStr (map fst r))) st0))
                     end).
    { rewrite update_run. cbv zeta. fold l st0.
      rewrite (update_defaults_with_id r id l st0 Hw Hid).
      rewrite !heap_set_field_same, !prop_set_prop_same.
      rewrite prop_set_prop_other by discriminate.
      destruct (truthy (prop (heap st0 l) "columns")); [reflexivity|].
      now rewrite heap_set_field_same, prop_set_prop_same. }
    assert (Hsent0 : sent st0 = sent st) by apply sent_settle.
    assert (Hsent : forall sql,
              sent (after_send sql
                      (set_field l "where" (VObj [("id", id)])
                         (if truthy (prop (heap st0 l) "columns") then st0
                          else set_field l "columns"
                                 (VArr (map VStr (map fst r))) st0)))
              = push (sent st) sql).
    { intros sql. cbn [after_send set_field sent].
      destruct (truthy (prop (heap st0 l) "columns")); cbn [set_field sent];
        now rewrite Hsent0. }
    assert (Hsilent :
              sent (set_field l "where" (VObj [("id", id)])
                      (if truthy (prop (heap st0 l) "columns") then st0
                       else set_field l "columns"
                              (VArr (map VStr (map fst r))) st0))
              = sent st).
    { cbn [set_field sent].
      destruct (truthy (prop (heap st0 l) "columns")); exact Hsent0. }
    repeat match goal with |- _ /\ _ => split end.
    + rewrite Hrun.
      destruct (update_sql _ _ _ _) as [sql|e];
        [rewrite query_store|]; cbn [snd after_send set_field heap];
        rewrite update_heap_same; apply lookup_set_prop_same.
    + rewrite Hrun. unfold update_sql.
      destruct (for_of _ _) as [cols|e]; cbn [rbind].
      * destruct (rmap_list _ cols) as [values|e]; cbn [rbind].
        -- right.
           exists (format (join ", " (map (fun _ => "?? = ?") cols))
                          (VArr (concat values)) false).
           rewrite query_store, Hsent, update_head, where_id.
           unfold update_by_id_text. rewrite !append_assoc. reflexivity.
        -- left. cbn [fst snd]. split; [eauto|exact Hsilent].
      * left. cbn [fst snd]. split; [eauto|exact Hsilent].
    + intros Hcols. rewrite Hrun. rewrite Hcols in Hsent |- *.
      rewrite update_sql_object, query_store, Hsent.
      unfold update_text, update_by_id_text. rewrite where_id. reflexivity.
    + intros columns Hcols _. rewrite Hrun. rewrite Hcols in Hsent |- *.
      cbn [truthy] in Hsent |- *.
      rewrite update_sql_object, query_store, Hsent.
      unfold update_text, update_by_id_text. rewrite where_id. reflexivity.
Qed.






Lemma words_from_blank (a b word : string) :
  words_from (a ++ String " " b) word
  = (words_from a word ++ words_from b "")%list.
Proof.
  revert word. induction a as [|c a IH]; intros word.
  - cbn. destruct (String.eqb word ""); reflexivity.
  - cbn [append words_from]. destruct (Ascii.eqb c " ").
    + destruct (String.eqb word ""); rewrite IH; reflexivity.
    + apply IH.
Qed.

(** The accumulators after the two rows. *)
Lemma two_rows_accumulated :
  updateRows_loop ([], [])
    [VObj [("id", VNum 1); ("name", VStr "a")];
     VObj [("id", VNum 2); ("name", VStr "b")]]
  = Ok ([("name", ([" WHEN  `id` = 1 THEN ? "; " WHEN  `id` = 2 THEN ? "],
                  [VStr "a"; VStr "b"]))],
        [("id", [VNum 1; VNum 2])]).
Proof. vm_compute. reflexivity. Qed.

Lemma words_after_table (keyword name tail1 tail2 : string) :
  words_from tail1 "" = words_from tail2 "" ->
  words (keyword ++ String " " (name ++ String " " tail1))
  = words (keyword ++ String " " (name ++ String " " tail2)).
Proof.
  intros H. unfold words. rewrite !words_from_blank. now rewrite H.
Qed.

(** C2. For the two rows [{id: 1, name: 'a'}] and [{id: 2, name: 'b'}],
    [updateRows] sends one statement: the UPDATE of the escaped table that
    sets [name] by one CASE with the two WHEN branches in the order of the
    batch and the column itself as the ELSE, under the one condition that
    [id] is among 1 and 2.  The text is given byte for byte; word for word
    it is the statement of the specification, from which it differs in the
    width of its blanks. *)
Theorem updateRows_two_rows (table : value) (st : store) :
  sent (snd (updateRows table two_rows st))
  = push (sent st)
         ("UPDATE " ++ SqlString.escapeId table
          ++ " SET  `name` = CASE  WHEN  `id` = 1 THEN 'a'   WHEN  `id` = 2 THEN 'b'  ELSE `name` END  WHERE `id` IN (1, 2)")
  /\ words ("UPDATE " ++ SqlString.escapeId table
            ++ " SET  `name` = CASE  WHEN  `id` = 1 THEN 'a'   WHEN  `id` = 2 THEN 'b'  ELSE `name` END  WHERE `id` IN (1, 2)")
     = words ("UPDATE " ++ SqlString.escapeId table
              ++ " SET `name` = CASE WHEN `id` = 1 THEN 'a' WHEN `id` = 2 THEN 'b' ELSE `name` END WHERE `id` IN (1, 2)").
Proof.
  split.
  - unfold updateRows, two_rows, bind, lift.
    rewrite two_rows_accumulated. cbn [fst snd].
    rewrite query_store. unfold after_send. cbn [sent]. reflexivity.
  - apply (words_after_table "UPDATE" (SqlString.escapeId table)
             "SET  `name` = CASE  WHEN  `id` = 1 THEN 'a'   WHEN  `id` = 2 THEN 'b'  ELSE `name` END  WHERE `id` IN (1, 2)"
             "SET `name` = CASE WHEN `id` = 1 THEN 'a' WHEN `id` = 2 THEN 'b' ELSE `name` END WHERE `id` IN (1, 2)").
    vm_compute. reflexivity.
Qed.


End WithDelegate.

(** The select of [{orders: []}] on table [t]. *)
Lemma orders_dangling_keyword_witness :
  sent (snd (@select headline_engine one_row_delegate (VStr "t") (Some 0)
               (mkStore (fun _ => [("orders", VArr [])]) 1 [])))
  = ["SELECT * FROM `t` ORDER BY "].
Proof.
  exact (proj2 (proj2 (proj2
           (@orders_dangling_keyword headline_engine one_row_delegate)))
         (VStr "t") 0 [] (mkStore (fun _ => [("orders", VArr [])]) 1 [])
         eq_refl eq_refl eq_refl).
Defined.

(** The request of the specification, in lower case. *)
Lemma lock_type_as_given_witness :
  @hash_locks headline_engine
    [VObj [("tableName", VStr "t"); ("lockType", VStr "read")]]
  = Ok "LOCK TABLES  `t`  read;".
Proof.
  exact (@lock_type_as_given headline_engine
           [("tableName", VStr "t"); ("lockType", VStr "read")] [] eq_refl).
Defined.

(** C6, as the specification states it, fails: the statement built for
    [{tableName: 't', lockType: 'read'}] is not the one with [READ], and the
    upper-case word occurs nowhere in it. *)
Lemma lock_type_not_uppercased :
  @hash_locks headline_engine
    [VObj [("tableName", VStr "t"); ("lockType", VStr "read")]]
  <> Ok "LOCK TABLES `t`  READ;"
  /\ (forall sql,
        @hash_locks headline_engine
          [VObj [("tableName", VStr "t"); ("lockType", VStr "read")]] = Ok sql ->
        indexOf "READ" sql = None).
Proof.
  split.
  - intros H. vm_compute in H. discriminate H.
  - intros sql H. vm_compute in H. injection H as <-. reflexivity.
Qed.



(** The count of table [t] over a delegate that answers one row. *)
Lemma count_statement_witness :
  fst (@count headline_engine one_row_delegate (VStr "t") VUndefined
         empty_store) = Ok (VNum 3).
Proof.
  exact (proj2 (proj2 (@count_statement headline_engine one_row_delegate
                         (VStr "t") VUndefined empty_store))
               [("count", VNum 3)] [] eq_refl).
Defined.

(** C8, as the specification states it, fails: the statement sent for
    table [t] is not the one with [AS] in upper case. *)
Lemma count_alias_keyword_lowercase :
  sent (snd (@count headline_engine one_row_delegate (VStr "t") VUndefined
               empty_store))
  <> ["SELECT COUNT(*) AS count FROM `t`"].
Proof.
  intros H. vm_compute in H. discriminate H.
Qed.


(** [update('t', {name: 'x'})] and [update('t', {id: 7, name: 'x'})],
    without options. *)
Lemma update_condition_default_witness :
  fst (@update headline_engine one_row_delegate (VStr "t")
         (VObj [("name", VStr "x")]) None empty_store)
  = Throw (@new_Error headline_engine update_no_condition)
  /\ sent (snd (@update headline_engine one_row_delegate (VStr "t")
                  (VObj [("name", VStr "x")]) None empty_store)) = []
  /\ lookup "where"
        (heap (snd (@update headline_engine one_row_delegate (VStr "t")
                      (VObj [("id", VNum 7); ("name", VStr "x")]) None
                      empty_store)) 0)
     = Some (VObj [("id", VNum 7)])
  /\ sent (snd (@update headline_engine one_row_delegate (VStr "t")
                  (VObj [("id", VNum 7); ("name", VStr "x")]) None
                  empty_store))
     = ["UPDATE `t` SET `id` = 7, `name` = 'x' WHERE `id` = 7"].
Proof.
  split; [|split; [|split]].
  - exact (proj1 (proj1 (@update_condition_default headline_engine
                           one_row_delegate (VStr "t")
                           (VObj [("name", VStr "x")]) None empty_store
                           eq_refl) eq_refl)).
  - exact (proj2 (proj1 (@update_condition_default headline_engine
                           one_row_delegate (VStr "t")
                           (VObj [("name", VStr "x")]) None empty_store
                           eq_refl) eq_refl)).
  - exact (proj1 (proj2 (@update_condition_default headline_engine
                           one_row_delegate (VStr "t")
                           (VObj [("id", VNum 7); ("name", VStr "x")]) None
                           empty_store eq_refl)
                        [("id", VNum 7); ("name", VStr "x")] (VNum 7)
                        eq_refl eq_refl)).
  - exact (proj1 (proj2 (proj2 (proj2 (@update_condition_default
                           headline_engine one_row_delegate (VStr "t")
                           (VObj [("id", VNum 7); ("name", VStr "x")]) None
                           empty_store eq_refl)
                        [("id", VNum 7); ("name", VStr "x")] (VNum 7)
                        eq_refl eq_refl))) eq_refl).
Defined.


(** [insert] of one row with an options object that names no columns. *)
Lemma options_object_mutated_witness :
  lookup "columns"
    (heap (snd (@insert headline_engine one_row_delegate (VStr "t")
                  (VObj [("a", VNum 1); ("b", VNum 2)]) (Some 0)
                  (mkStore (fun _ => []) 1 []))) 0)
  = Some (VArr [VStr "a"; VStr "b"]).
Proof.
  exact (proj1 (proj2 (@options_object_mutated headline_engine
                         one_row_delegate (VStr "t") 0
                         (mkStore (fun _ => []) 1 [])))
               (VObj [("a", VNum 1); ("b", VNum 2)]) ["a"; "b"]
               eq_refl eq_refl).
Defined.

End OperatorTheory.

(** ** Further properties of the operations *)

Module Extra.
Import Js Operator Spec Facts StoreFacts.
Import OperatorTheory ClauseTheory FormatTheory.

Section Effects.
Context {E : Engine} {D : Delegate}.

Lemma query_store_any (sql : string) (values : option value) (st : store) :
  snd (query sql values st) = after_send (query_text sql values) st.
Proof.
  unfold query, try_catch, bind, call_delegate, lift, ret, throw, after_send.
  fold (query_text sql values). cbn.
  destruct (_query (query_text sql values)) as [rows|err]; cbn; [|reflexivity].
  destruct (get_prop rows "length"); reflexivity.
Qed.

Lemma silent_ret {A} (a : A) : silent (ret a).
Proof. intros st. reflexivity. Qed.

Lemma silent_lift {A} (r : result A) : silent (lift r).
Proof. intros st. reflexivity. Qed.

Lemma silent_throw {A} (e : error) : silent (@throw A e).
Proof. intros st. reflexivity. Qed.

Lemma silent_read (l : loc) (k : string) : silent (read l k).
Proof. intros st. reflexivity. Qed.

Lemma silent_write (l : loc) (k : string) (v : value) : silent (write l k v).
Proof. intros st. reflexivity. Qed.

Lemma silent_or_fresh (options : option loc) : silent (or_fresh options).
Proof. intros st. destruct options; reflexivity. Qed.

Lemma silent_bind {A B} (m : M A) (k : A -> M B) :
  silent m -> (forall a, silent (k a)) -> silent (bind m k).
Proof.
  intros Hm Hk st. unfold bind. specialize (Hm st).
  destruct (m st) as [[a|e] st1]; cbn [snd] in Hm |- *.
  - now rewrite (Hk a st1).
  - exact Hm.
Qed.

Lemma one_call_throw {A} (e : error) : one_call (@throw A e).
Proof. intros st. right. split; [reflexivity|]. now exists e. Qed.

Lemma one_call_bind_silent {A B} (m : M A) (k : A -> M B) :
  silent m -> (forall a, one_call (k a)) -> one_call (bind m k).
Proof.
  intros Hm Hk st. unfold bind. specialize (Hm st).
  destruct (m st) as [[a|e] st1]; cbn [snd] in Hm |- *.
  - rewrite <- Hm. apply (Hk a st1).
  - right. split; [exact Hm|]. now exists e.
Qed.

Lemma one_call_then_silent {A B} (m : M A) (k : A -> M B) :
  one_call m -> (forall a, silent (k a)) -> one_call (bind m k).
Proof.
  intros Hm Hk st. unfold bind. specialize (Hm st).
  destruct (m st) as [[a|e] st1]; cbn [fst snd] in Hm |- *.
  - rewrite (Hk a st1). destruct Hm as [Hm|[_ [e He]]]; [now left|discriminate].
  - destruct Hm as [Hm|[Hm _]]; [now left|].
    right. split; [exact Hm|]. now exists e.
Qed.

Lemma one_call_query (sql : string) (values : option value) :
  one_call (query sql values).
Proof.
  intros st. left. exists (query_text sql values).
  now rewrite query_store_any.
Qed.

Lemma silent_default_columns (l : loc) (source : value) :
  silent (default_columns l source).
Proof.
  apply silent_bind; [apply silent_read|]. intros columns.
  destruct (negb (truthy columns)); [|apply silent_ret].
  apply silent_bind; [apply silent_lift|]. intros keys. apply silent_write.
Qed.

Lemma silent_default_where (l : loc) (row : value) :
  silent (default_where l row).
Proof.
  apply silent_bind; [apply silent_read|]. intros w.
  destruct (negb (truthy w)); [|apply silent_ret].
  apply silent_bind; [apply silent_lift|]. intros has_id.
  destruct (negb has_id); [apply silent_throw|].
  apply silent_bind; [apply silent_lift|]. intros id. apply silent_write.
Qed.

Ltac one_step :=
  first
    [ apply one_call_query
    | apply one_call_bind_silent;
      [ first [ apply silent_or_fresh | apply silent_read | apply silent_write
              | apply silent_lift | apply silent_default_columns
              | apply silent_default_where ]
      | intros ? ]
    | apply one_call_throw ].

Lemma one_call_select (table : value) (options : option loc) :
  one_call (select table options).
Proof. unfold select. repeat one_step. Qed.

(** X1. The one-call discipline: each asynchronous operation either
    hands exactly one SQL text to the delegate, after the texts handed
    before, or hands none and ends with a thrown error; so an operation
    that returns a result has called the delegate once, and none retries. *)
Theorem one_delegate_call_per_operation :
  (forall sql values, one_call (query sql values))
  /\ (forall sql values, one_call (queryOne sql values))
  /\ (forall table where_, one_call (count table where_))
  /\ (forall table options, one_call (select table options))
  /\ (forall table where_ options, one_call (get table where_ options))
  /\ (forall table rows options, one_call (insert table rows options))
  /\ (forall table row options, one_call (update table row options))
  /\ (forall table options, one_call (updateRows table options))
  /\ (forall table where_, one_call (delete table where_))
  /\ (forall tables, one_call (locks tables))
  /\ (forall tableName lockType tableAlias,
        one_call (lockOne tableName lockType tableAlias))
  /\ one_call unlock.
Proof.
  repeat match goal with |- _ /\ _ => split end; intros.
  - apply one_call_query.
  - unfold queryOne. apply one_call_then_silent; [apply one_call_query|].
    intros rows. apply silent_lift.
  - unfold count. apply one_call_then_silent; [apply one_call_query|].
    intros rows. apply silent_bind; [apply silent_lift|].
    intros row. apply silent_lift.
  - apply one_call_select.
  - unfold get. do 4 one_step.
    apply one_call_then_silent; [apply one_call_select|].
    intros rows. apply silent_lift.
  - unfold insert. repeat one_step.
  - unfold update. repeat one_step.
  - unfold updateRows. destruct options; repeat one_step.
  - unfold delete. apply one_call_query.
  - unfold locks. repeat one_step.
  - unfold lockOne. repeat one_step.
  - unfold unlock. apply one_call_query.
Qed.

Lemma keeps_ret {A} (a : A) : keeps_objects (ret a).
Proof. intros st. split; reflexivity. Qed.

Lemma keeps_lift {A} (r : result A) : keeps_objects (lift r).
Proof. intros st. split; reflexivity. Qed.

Lemma keeps_throw {A} (e : error) : keeps_objects (@throw A e).
Proof. intros st. split; reflexivity. Qed.

Lemma keeps_read (l : loc) (k : string) : keeps_objects (read l k).
Proof. intros st. split; reflexivity. Qed.

Lemma keeps_bind {A B} (m : M A) (k : A -> M B) :
  keeps_objects m -> (forall a, keeps_objects (k a)) ->
  keeps_objects (bind m k).
Proof.
  intros Hm Hk st. unfold bind. specialize (Hm st).
  destruct (m st) as [[a|e] st1]; cbn [snd] in Hm |- *.
  - destruct (Hk a st1) as [Hh Hn]. destruct Hm as [Hm1 Hm2].
    now rewrite Hh, Hn.
  - exact Hm.
Qed.

Lemma keeps_query (sql : string) (values : option value) :
  keeps_objects (query sql values).
Proof. intros st. rewrite query_store_any. split; reflexivity. Qed.

Ltac keep_step :=
  first
    [ apply keeps_query | apply keeps_ret | apply keeps_lift
    | apply keeps_throw | apply keeps_read
    | apply keeps_bind; [|intros ?] ].

(** X2. The operations that take no options object, and [select] with
    the options object of the caller, only read: they leave every object
    of the store as it is and create none.  ([get], [insert] and [update]
    are the ones that write.) *)
Theorem read_only_operations :
  (forall sql values, keeps_objects (query sql values))
  /\ (forall sql values, keeps_objects (queryOne sql values))
  /\ (forall table where_, keeps_objects (count table where_))
  /\ (forall table l, keeps_objects (select table (Some l)))
  /\ (forall table options, keeps_objects (updateRows table options))
  /\ (forall table where_, keeps_objects (delete table where_))
  /\ (forall tables, keeps_objects (locks tables))
  /\ (forall tableName lockType tableAlias,
        keeps_objects (lockOne tableName lockType tableAlias))
  /\ keeps_objects unlock.
Proof.
  repeat match goal with |- _ /\ _ => split end; intros.
  - apply keeps_query.
  - unfold queryOne. repeat keep_step.
  - unfold count. repeat keep_step.
  - unfold select, or_fresh. repeat keep_step.
  - unfold updateRows. destruct options; repeat keep_step.
  - unfold delete. apply keeps_query.
  - unfold locks. repeat keep_step.
  - unfold lockOne. repeat keep_step.
  - unfold unlock. apply keeps_query.
Qed.

End Effects.

Section Statements.
Context {E : Engine} {D : Delegate}.

(** X3. [delete] has no guard: with a condition that is absent, falsy or
    the empty object it sends the DELETE of the whole table; with a
    non-empty object it sends the DELETE under the conditions of the
    object. *)
Theorem delete_statement (table : value) (st : store) :
  (forall where_ : value,
     truthy where_ = false ->
     sent (snd (delete table where_ st))
     = push (sent st) ("DELETE FROM " ++ SqlString.escapeId table))
  /\ sent (snd (delete table (VObj []) st))
     = push (sent st) ("DELETE FROM " ++ SqlString.escapeId table)
  /\ (forall (kv : string * value) (o : obj),
        sent (snd (delete table (VObj (kv :: o)) st))
        = push (sent st)
               ("DELETE FROM " ++ SqlString.escapeId table ++ " WHERE "
                ++ join " AND " (map where_fragment (kv :: o)))).
Proof.
  split; [|split].
  - intros where_ Hw. unfold delete. rewrite query_store_any, (where_falsy _ Hw).
    cbn [query_text after_send sent].
    f_equal; try (cbn -[SqlString.escapeId]; now rewrite append_nil_r).
  - unfold delete. rewrite query_store_any.
    cbn [query_text after_send sent].
    f_equal; try (cbn -[SqlString.escapeId]; now rewrite append_nil_r).
  - intros kv o. unfold delete. rewrite query_store_any, where_object.
    cbn [query_text after_send sent]. reflexivity.
Qed.

Lemma select_run (table : value) (l : loc) (st : store) :
  select table (Some l) st
  = match _orders (prop (heap st l) "orders") with
    | Ok orders_sql =>
        query (_selectColumns table (prop (heap st l) "columns")
               ++ _where (prop (heap st l) "where") ++ orders_sql
               ++ _limit (prop (heap st l) "limit") (prop (heap st l) "offset"))
              None st
    | Throw e => (Throw e, st)
    end.
Proof.
  unfold select, bind, or_fresh, ret, read, lift.
  fold (prop (heap st l) "columns") (prop (heap st l) "where")
       (prop (heap st l) "orders") (prop (heap st l) "limit")
       (prop (heap st l) "offset").
  destruct (_orders _); reflexivity.
Qed.

Lemma get_run (table where_ : value) (options : option loc) (st : store) :
  get table where_ options st
  = (rows <- select table (Some (fst (settle options st))) ;;
     lift (first_or_null rows))
      (set_field (fst (settle options st)) "offset" (VNum 0)
         (set_field (fst (settle options st)) "limit" (VNum 1)
            (set_field (fst (settle options st)) "where" where_
               (snd (settle options st))))).
Proof.
  unfold get. unfold bind at 1. rewrite or_fresh_settle. reflexivity.
Qed.

(** X4. [get] forces the limit: whatever [limit] and [offset] the options
    held, the statement it sends is the SELECT of the options' columns
    under the [where] argument and the options' order, ending in
    [ LIMIT 0, 1]; it returns [null] when the delegate resolves with no
    row, and otherwise the first row (or [null] when that one is falsy). *)
Theorem get_statement_and_result (table where_ : value)
  (options : option loc) (st : store) (orders_sql : string) :
  _orders (prop (heap (snd (settle options st)) (fst (settle options st)))
                "orders") = Ok orders_sql ->
  sent (snd (get table where_ options st))
  = push (sent st)
         (_selectColumns table
            (prop (heap (snd (settle options st)) (fst (settle options st)))
                  "columns")
          ++ _where where_ ++ orders_sql ++ " LIMIT 0, 1")
  /\ (forall rows : list value,
        _query (_selectColumns table
                  (prop (heap (snd (settle options st))
                              (fst (settle options st))) "columns")
                ++ _where where_ ++ orders_sql ++ " LIMIT 0, 1")
        = Ok (VArr rows) ->
        fst (get table where_ options st)
        = Ok (match rows with
              | [] => VNull
              | row :: _ => if truthy row then row else VNull
              end)).
Proof.
  intros Horders. rewrite get_run.
  set (l := fst (settle options st)). set (st0 := snd (settle options st)).
  fold l st0 in Horders.
  set (st3 := set_field l "offset" (VNum 0)
                (set_field l "limit" (VNum 1) (set_field l "where" where_ st0))).
  assert (Hobj : heap st3 l
                 = set_prop "offset" (VNum 0)
                     (set_prop "limit" (VNum 1)
                        (set_prop "where" where_ (heap st0 l)))).
  { unfold st3. now rewrite !heap_set_field_same. }
  assert (Hsel : select table (Some l) st3
                 = query (_selectColumns table (prop (heap st0 l) "columns")
                          ++ _where where_ ++ orders_sql ++ " LIMIT 0, 1")
                         None st3).
  { rewrite select_run, Hobj.
    rewrite !(prop_set_prop_other "orders") by discriminate.
    rewrite Horders.
    rewrite !(prop_set_prop_other "columns") by discriminate.
    rewrite !(prop_set_prop_other "where" "offset"),
            !(prop_set_prop_other "where" "limit") by discriminate.
    rewrite (prop_set_prop_same "where").
    rewrite (prop_set_prop_other "limit" "offset") by discriminate.
    rewrite (prop_set_prop_same "limit"), (prop_set_prop_same "offset").
    reflexivity. }
  unfold bind. rewrite Hsel. split.
  - pose proof (query_store_any
                  (_selectColumns table (prop (heap st0 l) "columns")
                   ++ _where where_ ++ orders_sql ++ " LIMIT 0, 1")
                  None st3) as Hst.
    destruct (query _ None st3) as [[rows|e] st']; cbn [snd] in Hst; subst st'.
    + unfold lift. cbn [snd after_send sent query_text]. unfold st3, st0.
      cbn [set_field sent]. now rewrite sent_settle.
    + cbn [snd after_send sent query_text]. unfold st3, st0.
      cbn [set_field sent]. now rewrite sent_settle.
  - intros rows Hq.
    pose proof (query_resolves _ (VArr rows) st3 Hq eq_refl) as Hres.
    destruct (query _ None st3) as [[rows'|e] st']; cbn [fst] in Hres;
      [|discriminate].
    injection Hres as ->. unfold lift. cbn [fst first_or_null truthy].
    destruct rows as [|row rest]; reflexivity.
Qed.

Lemma insert_run (table rows : value) (options : option loc) (st : store) :
  insert table rows options st
  = match default_columns (fst (settle options st)) (first_row rows)
                          (snd (settle options st)) with
    | (Ok _, st1) =>
        match rmap_list
                (fun row =>
                   rbind (row_values
                            (prop (heap st1 (fst (settle options st))) "columns")
                            row)
                         (fun vs => Ok (VArr vs)))
                (row_list rows) with
        | Ok tuples =>
            query (format ("INSERT INTO ??(??) VALUES"
                           ++ join ", " (map (fun _ => "(?)") (row_list rows)))
                          (VArr (table
                                 :: prop (heap st1 (fst (settle options st)))
                                         "columns"
                                 :: tuples)) false)
                  None st1
        | Throw e => (Throw e, st1)
        end
    | (Throw e, st1) => (Throw e, st1)
    end.
Proof.
  unfold insert. unfold bind at 1. rewrite or_fresh_settle.
  fold (first_row rows) (row_list rows). unfold bind.
  destruct (default_columns _ _ _) as [[[]|e] st1]; [|reflexivity].
  unfold read, lift.
  fold (prop (heap st1 (fst (settle options st))) "columns").
  destruct (rmap_list _ _); reflexivity.
Qed.

Lemma row_values_object (columns : list string) (r : obj) :
  row_values (VArr (map VStr columns)) (VObj r) = Ok (map (prop r) columns).
Proof.
  unfold row_values. cbn [for_of rbind].
  induction columns as [|c columns IH]; [reflexivity|].
  cbn [map rmap_list]. rewrite IH. reflexivity.
Qed.

Lemma tuples_of_objects (columns : list string) (rs : list obj) :
  rmap_list (fun row => rbind (row_values (VArr (map VStr columns)) row)
                              (fun vs => Ok (VArr vs)))
            (map VObj rs)
  = Ok (map (fun r => VArr (map (prop r) columns)) rs).
Proof.
  induction rs as [|r rs IH]; [reflexivity|].
  cbn [map rmap_list]. rewrite row_values_object. cbn [rbind].
  now rewrite IH.
Qed.

(** The tuples of the template take one array each. *)
Lemma scan_tuples {A} (f : A -> list value) (l : list A) :
  SqlString.scan false (join ", " (map (fun _ => "(?)") l)) 0
                 (map (fun a => VArr (f a)) l)
  = join ", " (map (fun a => "(" ++ SqlString.escape (VArr (f a)) ++ ")") l).
Proof.
  induction l as [|a l IH]; [reflexivity|].
  destruct l as [|b l'].
  - cbn -[SqlString.escape_with]. reflexivity.
  - change (join ", " (map (fun _ => "(?)") (a :: b :: l')))
      with ("(?)" ++ ", " ++ join ", " (map (fun _ => "(?)") (b :: l'))).
    change (join ", " (map (fun x => "(" ++ SqlString.escape (VArr (f x)) ++ ")")
                           (a :: b :: l')))
      with (("(" ++ SqlString.escape (VArr (f a)) ++ ")") ++ ", "
            ++ join ", " (map (fun x => "(" ++ SqlString.escape (VArr (f x)) ++ ")")
                              (b :: l'))).
    rewrite <- IH.
    cbn -[SqlString.escape_with SqlString.scan join].
    cbn [SqlString.scan Ascii.eqb Bool.eqb SqlString.placeholder].
    rewrite ?append_assoc. reflexivity.
Qed.

Lemma insert_template (table columns : value) (rest : string)
  (vals : list value) :
  SqlString.scan false ("INSERT INTO ??(??) VALUES" ++ rest) 0
                 (table :: columns :: vals)
  = "INSERT INTO " ++ SqlString.escapeId table ++ "("
    ++ SqlString.escapeId columns ++ ") VALUES"
    ++ SqlString.scan false rest 0 vals.
Proof.
  cbn -[SqlString.escapeId]. rewrite ?append_assoc. reflexivity.
Qed.

Lemma insert_sent (table : value) (columns : list string) (rs : list obj)
  (options : option loc) (st st1 : store) :
  default_columns (fst (settle options st)) (first_row (VArr (map VObj rs)))
                  (snd (settle options st)) = (Ok tt, st1) ->
  prop (heap st1 (fst (settle options st))) "columns" = VArr (map VStr columns) ->
  sent st1 = sent st ->
  sent (snd (insert table (VArr (map VObj rs)) options st))
  = push (sent st) (insert_text table columns rs).
Proof.
  intros Hdef Hcols Hsent. rewrite insert_run, Hdef, Hcols.
  cbn [row_list]. rewrite tuples_of_objects, query_store_any.
  cbn [after_send sent query_text]. rewrite Hsent. f_equal.
  unfold format. cbn [SqlString.format].
  rewrite (map_map VObj (fun _ : value => "(?)")). cbv beta.
  rewrite insert_template.
  pose proof (scan_tuples (fun r : obj => map (prop r) columns) rs) as Ht.
  unfold obj in Ht |- *. rewrite Ht. reflexivity.
Qed.

(** X5. The statement of [insert] for rows that are objects, when no
    row is read under a name that only [Object.prototype] answers to (each
    column is a property of the row or is not the name of a member of
    [Object.prototype]): one INSERT with the escaped table, the escaped
    column list and one parenthesized tuple per row in the order of the
    rows, each tuple holding the values of its row in the order of the
    columns, NULL where the row lacks the column.  The columns are the
    ones of the options, or the keys of the first row when the options
    name none. *)
Theorem insert_statement (table : value) (options : option loc) (st : store) :
  (forall (columns : list string) (rs : list obj),
     prop (heap (snd (settle options st)) (fst (settle options st))) "columns"
     = VArr (map VStr columns) ->
     forallb (fun r => forallb (reads_own r) columns) rs = true ->
     sent (snd (insert table (VArr (map VObj rs)) options st))
     = push (sent st) (insert_text table columns rs))
  /\ (forall (r : obj) (rs : list obj),
        truthy (prop (heap (snd (settle options st)) (fst (settle options st)))
                     "columns") = false ->
        forallb (fun r' => forallb (reads_own r') (map fst r)) rs = true ->
        sent (snd (insert table (VArr (map VObj (r :: rs))) options st))
        = push (sent st) (insert_text table (map fst r) (r :: rs))).
Proof.
  split.
  - intros columns rs Hcols _.
    apply (insert_sent table columns rs options st (snd (settle options st))).
    + rewrite default_columns_run, Hcols. reflexivity.
    + exact Hcols.
    + apply sent_settle.
  - intros r rs Hcols _.
    apply (insert_sent table (map fst r) (r :: rs) options st
             (set_field (fst (settle options st)) "columns"
                        (VArr (map VStr (map fst r))) (snd (settle options st)))).
    + rewrite default_columns_run, Hcols. reflexivity.
    + rewrite heap_set_field_same. apply prop_set_prop_same.
    + cbn [set_field sent]. apply sent_settle.
Qed.

(** X6. Two edges of [insert]: a single row stands for the array of
    that row; an empty array of rows makes [insert] throw a TypeError
    before anything is sent when the options name no columns (the keys of
    a first row that does not exist are asked for), and makes it send an
    INSERT without any tuple when they do. *)
Theorem insert_single_and_empty (table : value) (options : option loc)
  (st : store) :
  (forall row : value,
     isArray row = false ->
     insert table row options st = insert table (VArr [row]) options st)
  /\ (truthy (prop (heap (snd (settle options st)) (fst (settle options st)))
                   "columns") = false ->
      fst (insert table (VArr []) options st)
      = Throw (new_TypeError "Cannot convert undefined or null to object")
      /\ sent (snd (insert table (VArr []) options st)) = sent st)
  /\ (forall columns : list string,
        prop (heap (snd (settle options st)) (fst (settle options st)))
             "columns" = VArr (map VStr columns) ->
        sent (snd (insert table (VArr []) options st))
        = push (sent st)
               ("INSERT INTO " ++ SqlString.escapeId table ++ "("
                ++ SqlString.escapeId (VArr (map VStr columns)) ++ ") VALUES")).
Proof.
  split; [|split].
  - intros row Hrow. destruct row; try discriminate; reflexivity.
  - intros Hcols. rewrite insert_run, default_columns_run, Hcols.
    cbn [first_row nth object_keys fst snd]. split; [reflexivity|].
    apply sent_settle.
  - intros columns Hcols.
    assert (Hdef : default_columns (fst (settle options st))
                     (first_row (VArr (map VObj [])))
                     (snd (settle options st))
                   = (Ok tt, snd (settle options st)))
      by (rewrite default_columns_run, Hcols; reflexivity).
    pose proof (insert_sent table columns [] options st _ Hdef Hcols
                  (sent_settle options st)) as Hsent.
    cbn [map] in Hsent. rewrite Hsent.
    unfold insert_text. cbn [map join]. now rewrite append_nil_r.
Qed.

(** X7. The statement of [update] for a row that is an object: the
    UPDATE of the escaped table that sets each column to the escaped value
    the row has for it, the assignments joined by a comma, under the
    condition.  With columns and condition given in the options these are
    used, and a column the row lacks is set to NULL, as long as its name
    is not the name of a member of [Object.prototype], which the read
    would find; with neither given and an [id] in the row, the columns are
    the keys of the row, [id] included, and the condition is
    [{id: row.id}]. *)
Theorem update_statement (table : value) (r : obj) (options : option loc)
  (st : store) :
  (forall columns : list string,
     prop (heap (snd (settle options st)) (fst (settle options st))) "columns"
     = VArr (map VStr columns) ->
     truthy (prop (heap (snd (settle options st)) (fst (settle options st)))
                  "where") = true ->
     forallb (reads_own r) columns = true ->
     sent (snd (update table (VObj r) options st))
     = push (sent st)
            (update_text table columns r
               (prop (heap (snd (settle options st)) (fst (settle options st)))
                     "where")))
  /\ (forall id : value,
        truthy (prop (heap (snd (settle options st)) (fst (settle options st)))
                     "columns") = false ->
        truthy (prop (heap (snd (settle options st)) (fst (settle options st)))
                     "where") = false ->
        lookup "id" r = Some id ->
        sent (snd (update table (VObj r) options st))
        = push (sent st)
               (update_text table (map fst r) r (VObj [("id", id)]))).
Proof.
  split.
  - intros columns Hcols Hwhere _. rewrite update_run. cbv zeta. unfold bind.
    rewrite default_columns_run, Hcols. cbn [truthy].
    rewrite default_where_run, Hwhere, Hcols, update_sql_object.
    rewrite query_store_any. cbn [after_send sent query_text].
    now rewrite sent_settle.
  - intros id Hcols Hwhere Hid. rewrite update_run. cbv zeta. unfold bind.
    rewrite default_columns_run, Hcols. cbn [object_keys for_in].
    rewrite default_where_run.
    rewrite heap_set_field_same, prop_set_prop_other by discriminate.
    rewrite Hwhere.
    assert (Hin : in_op "id" (VObj r) = Ok true)
      by (cbn; unfold has_key; now rewrite Hid).
    assert (Hget : get_prop (VObj r) "id" = Ok id)
      by (cbn; now rewrite Hid).
    rewrite Hin, Hget. rewrite !heap_set_field_same.
    rewrite prop_set_prop_other by discriminate.
    rewrite !prop_set_prop_same, update_sql_object.
    rewrite query_store_any. cbn [after_send sent query_text set_field].
    now rewrite sent_settle.
Qed.

End Statements.

Section Batch.
Context {E : Engine} {D : Delegate}.

(** *** Property tables under [set_prop] *)

Lemma has_key_in {V} (k : string) (o : list (string * V)) :
  has_key k o = true <-> In k (map fst o).
Proof.
  unfold has_key. induction o as [|[k' v'] o IH]; cbn.
  - split; [discriminate|tauto].
  - destruct (String.eqb k k') eqn:Hk.
    + apply String.eqb_eq in Hk. subst. split; auto.
    + apply String.eqb_neq in Hk. rewrite IH. split; [auto|].
      intros [H|H]; [congruence|exact H].
Qed.

Lemma keys_replace_key {V} (k : string) (v : V) (o : list (string * V)) :
  map fst (replace_key k v o) = map fst o.
Proof.
  induction o as [|[k' v'] o IH]; [reflexivity|]. cbn.
  destruct (String.eqb k k'); cbn; [reflexivity|]. now rewrite IH.
Qed.

Lemma keys_insert_index {V} (n : N) (k : string) (v : V)
  (o : list (string * V)) :
  exists a b, map fst o = (a ++ b)%list
              /\ map fst (insert_index n k v o) = (a ++ k :: b)%list.
Proof.
  induction o as [|[k' v'] o [a [b [H1 H2]]]].
  - exists [], []. split; reflexivity.
  - cbn [insert_index]. destruct (array_index k') as [m|].
    + destruct (N.ltb n m).
      * exists [], (k' :: map fst o). split; reflexivity.
      * exists (k' :: a), b. cbn. now rewrite H1, H2.
    + exists [], (k' :: map fst o). split; reflexivity.
Qed.

Lemma keys_set_prop_new {V} (k : string) (v : V) (o : list (string * V)) :
  has_key k o = false ->
  exists a b, map fst o = (a ++ b)%list
              /\ map fst (set_prop k v o) = (a ++ k :: b)%list.
Proof.
  intros Hk. unfold set_prop. rewrite Hk. destruct (array_index k).
  - apply keys_insert_index.
  - exists (map fst o), []. unfold push. rewrite map_app, app_nil_r.
    split; reflexivity.
Qed.

Lemma nodup_set_prop {V} (k : string) (v : V) (o : list (string * V)) :
  NoDup (map fst o) -> NoDup (map fst (set_prop k v o)).
Proof.
  intros Hnd. destruct (has_key k o) eqn:Hk.
  - unfold set_prop. rewrite Hk. now rewrite keys_replace_key.
  - destruct (keys_set_prop_new k v o Hk) as [a [b [H1 H2]]].
    rewrite H2. apply (NoDup_Add (Add_app k a b)).
    rewrite <- H1. split; [exact Hnd|].
    intros Hin. apply has_key_in in Hin. congruence.
Qed.

Lemma forall_replace_key {V} (P : V -> Prop) (k : string) (v : V)
  (o : list (string * V)) :
  Forall (fun e => P (snd e)) o -> P v ->
  Forall (fun e => P (snd e)) (replace_key k v o).
Proof.
  intros Ho Hv. induction Ho as [|[k' v'] o Hx Ho IH]; cbn; [constructor|].
  destruct (String.eqb k k'); constructor; auto.
Qed.

Lemma forall_insert_index {V} (P : V -> Prop) (n : N) (k : string) (v : V)
  (o : list (string * V)) :
  Forall (fun e => P (snd e)) o -> P v ->
  Forall (fun e => P (snd e)) (insert_index n k v o).
Proof.
  intros Ho Hv. induction Ho as [|[k' v'] o Hx Ho IH]; cbn.
  - constructor; [exact Hv|constructor].
  - destruct (array_index k') as [m|].
    + destruct (N.ltb n m); constructor; auto.
    + constructor; auto.
Qed.

Lemma forall_set_prop {V} (P : V -> Prop) (k : string) (v : V)
  (o : list (string * V)) :
  Forall (fun e => P (snd e)) o -> P v ->
  Forall (fun e => P (snd e)) (set_prop k v o).
Proof.
  intros Ho Hv. unfold set_prop. destruct (has_key k o).
  - now apply forall_replace_key.
  - destruct (array_index k).
    + now apply forall_insert_index.
    + unfold push. apply Forall_app. split; [exact Ho|].
      constructor; [exact Hv|constructor].
Qed.

Lemma forall_lookup {V} (P : V -> Prop) (k : string) (v : V)
  (o : list (string * V)) :
  Forall (fun e => P (snd e)) o -> lookup k o = Some v -> P v.
Proof.
  intros Ho. induction Ho as [|[k' v'] o Hx Ho IH]; cbn; [discriminate|].
  destruct (String.eqb k k'); [|exact IH].
  intros H. injection H as <-. exact Hx.
Qed.

Lemma rfold_left_invariant {A B} (P : A -> Prop) (f : A -> B -> result A)
  (l : list B) (a a' : A) :
  (forall a x a', P a -> f a x = Ok a' -> P a') ->
  P a -> rfold_left f l a = Ok a' -> P a'.
Proof.
  intros Hf. revert a. induction l as [|x l IH]; intros a Ha; cbn.
  - intros H. injection H as <-. exact Ha.
  - destruct (f a x) as [a1|e] eqn:Hfx; [|discriminate].
    cbn [rbind]. apply IH. exact (Hf a x a1 Ha Hfx).
Qed.

Lemma push_case_invariant (w : string) (c c1 : sql_case)
  (kv : string * value) :
  NoDup (map fst c) /\ aligned c ->
  push_case w c kv = Ok c1 ->
  NoDup (map fst c1) /\ aligned c1.
Proof.
  intros [Hnd Hal]. unfold push_case.
  destruct (andb _ _); [discriminate|]. cbv zeta.
  set (c' := if has_key (fst kv) c then c else set_prop (fst kv) ([], []) c).
  assert (Hc' : NoDup (map fst c') /\ aligned c').
  { unfold c'. destruct (has_key (fst kv) c); [now split|]. split.
    - now apply nodup_set_prop.
    - apply (forall_set_prop
               (fun v => length (fst v) = length (snd v))); [exact Hal|].
      reflexivity. }
  destruct Hc' as [Hnd' Hal'].
  destruct (lookup (fst kv) c') as [[when_ then_]|] eqn:Hl;
    intros H; injection H as <-; [|now split].
  split.
  - now apply nodup_set_prop.
  - apply (forall_set_prop (fun v => length (fst v) = length (snd v)));
      [exact Hal'|].
    pose proof (forall_lookup (fun v => length (fst v) = length (snd v))
                  _ _ _ Hal' Hl) as Hlen.
    cbn [fst snd] in Hlen |- *. unfold push. rewrite !length_app.
    cbn [length]. now rewrite Hlen.
Qed.

Lemma distinct_values_push (seen : list value) (v : value) :
  distinct_values seen ->
  existsb (fun x => strict_eq x v) seen = false ->
  distinct_values (push seen v).
Proof.
  unfold push. induction seen as [|x seen IH]; cbn [app distinct_values existsb].
  - intros _ _. split; [constructor|exact I].
  - intros [Hx Hs] He. apply orb_false_iff in He as [Hxv He].
    split; [|now apply IH].
    apply Forall_app. split; [exact Hx|].
    constructor; [exact Hxv|constructor].
Qed.

Lemma push_where_invariant (w w1 : where_acc) (kv : string * value) :
  NoDup (map fst w) /\ Forall (fun e => distinct_values (snd e)) w ->
  push_where w kv = Ok w1 ->
  NoDup (map fst w1)
  /\ Forall (fun e => distinct_values (snd e)) w1.
Proof.
  intros [Hnd Hd]. unfold push_where.
  destruct (andb _ _); [discriminate|]. cbv zeta.
  set (w' := if has_key (fst kv) w then w else set_prop (fst kv) [] w).
  assert (Hw' : NoDup (map fst w')
                /\ Forall (fun e => distinct_values (snd e)) w').
  { unfold w'. destruct (has_key (fst kv) w); [now split|]. split.
    - now apply nodup_set_prop.
    - apply (forall_set_prop distinct_values); [exact Hd|exact I]. }
  destruct Hw' as [Hnd' Hd'].
  destruct (lookup (fst kv) w') as [seen|] eqn:Hl;
    [|intros H; injection H as <-; now split].
  destruct (existsb (fun x => strict_eq x (snd kv)) seen) eqn:He;
    intros H; injection H as <-; [now split|].
  split.
  - now apply nodup_set_prop.
  - apply (forall_set_prop distinct_values); [exact Hd'|].
    apply distinct_values_push; [|exact He].
    exact (forall_lookup distinct_values _ _ _ Hd' Hl).
Qed.

Lemma updateRows_step_invariant (acc acc' : sql_case * where_acc)
  (option : value) :
  batch_invariant acc ->
  updateRows_step acc option = Ok acc' ->
  batch_invariant acc'.
Proof.
  intros [Hn1 [Ha [Hn2 Hd]]]. unfold updateRows_step.
  destruct (normalize_option option) as [rw|e]; [|discriminate].
  cbn [rbind].
  destruct (rfold_left (push_case _) _ _) as [c1|e] eqn:Hc; [|discriminate].
  cbn [rbind].
  destruct (rfold_left push_where _ _) as [w1|e] eqn:Hw; [|discriminate].
  cbn [rbind]. intros H. injection H as <-. unfold batch_invariant.
  cbn [fst snd].
  pose proof (rfold_left_invariant
                (fun c => NoDup (map fst c) /\ aligned c)
                (push_case (strip_where (_where (snd rw))))
                (for_in (fst rw)) (fst acc) c1
                (fun c x c' => push_case_invariant _ c c' x) (conj Hn1 Ha) Hc)
    as [H1 H2].
  pose proof (rfold_left_invariant
                (fun w => NoDup (map fst w)
                          /\ Forall (fun e => distinct_values (snd e)) w)
                push_where (for_in (snd rw)) (snd acc) w1
                (fun w x w' => push_where_invariant w w' x) (conj Hn2 Hd) Hw)
    as [H3 H4].
  repeat split; assumption.
Qed.

Lemma updateRows_loop_invariant (options : list value)
  (acc acc' : sql_case * where_acc) :
  batch_invariant acc ->
  updateRows_loop acc options = Ok acc' ->
  batch_invariant acc'.
Proof.
  revert acc. induction options as [|option rest IH]; intros acc Hinv.
  - cbn. intros H. injection H as <-. exact Hinv.
  - cbn [updateRows_loop].
    destruct (updateRows_step acc option) as [acc1|e] eqn:Hstep;
      [|discriminate].
    cbn [rbind]. apply IH. exact (updateRows_step_invariant _ _ _ Hinv Hstep).
Qed.

(** X8. What [updateRows] has accumulated when its loop is through, for
    every batch: each column appears once among the CASE accumulators and
    has as many WHEN fragments as queued values, so that the placeholders
    of its CASE and the values meet; each condition column appears once,
    and no value is listed twice for it (for the equality of [indexOf]). *)
Theorem updateRows_accumulators (options : list value)
  (acc : sql_case * where_acc) :
  updateRows_loop ([], []) options = Ok acc ->
  batch_invariant acc.
Proof.
  apply updateRows_loop_invariant.
  repeat split; cbn; constructor.
Qed.


Lemma normalize_explicit_entry (option : value) :
  normalize_option (explicit_entry option) = normalize_option option.
Proof.
  destruct option as [| | | | | |o]; try reflexivity.
  cbn [explicit_entry].
  destruct (has_key "hasOwnProperty" o) eqn:Hown; [reflexivity|].
  destruct (lookup "id" o) as [id|] eqn:Hid; [|reflexivity].
  unfold normalize_option at 2. cbn [hasOwnProperty get_prop rbind].
  rewrite Hown. cbn [rbind]. unfold has_key. rewrite Hid. reflexivity.
Qed.

Lemma updateRows_loop_explicit (options : list value)
  (acc : sql_case * where_acc) :
  updateRows_loop acc (map explicit_entry options)
  = updateRows_loop acc options.
Proof.
  revert acc. induction options as [|option rest IH]; intros acc;
    [reflexivity|].
  cbn [map updateRows_loop]. unfold updateRows_step.
  rewrite normalize_explicit_entry.
  destruct (normalize_option option) as [rw|e]; [|reflexivity].
  cbn [rbind].
  destruct (rfold_left (push_case _) _ _) as [c1|e]; [|reflexivity].
  cbn [rbind].
  destruct (rfold_left push_where _ _) as [w1|e]; [|reflexivity].
  cbn [rbind]. apply IH.
Qed.

(** X9. The entry [{id, ...columns}] is sugar: [updateRows] does the same
    on a batch and on the batch in which every entry that has an [id] is
    written as [{row: {...columns}, where: {id}}]; the [id] decides, also
    when the entry has a [row] and a [where] besides (they are then taken
    as columns).  The columns are what the loop over the built row
    visits; an entry with a property named [hasOwnProperty], which cannot
    be asked for its [id], is left as it is. *)
Theorem updateRows_id_sugar (table : value) (options : list value)
  (st : store) :
  updateRows table (VArr (map explicit_entry options)) st
  = updateRows table (VArr options) st.
Proof.
  unfold updateRows. now rewrite updateRows_loop_explicit.
Qed.

(** X10. [updateRows] has no guard against an empty batch: it sends the
    UPDATE of the table with no assignment and no condition. *)
Theorem updateRows_empty_batch (table : value) (st : store) :
  sent (snd (updateRows table (VArr []) st))
  = push (sent st) ("UPDATE " ++ SqlString.escapeId table ++ " SET ").
Proof.
  unfold updateRows, bind, lift. cbn [updateRows_loop fst snd].
  rewrite query_store_any. reflexivity.
Qed.

Lemma strip_where_clause (text : string) :
  strip_where (" WHERE " ++ text) = " " ++ text.
Proof. reflexivity. Qed.

(** X11. The condition of a WHEN branch: [updateRows] cuts the WHERE
    fragment after the first [WHERE], which is the keyword whatever the
    names and values are; for a non-empty condition object what is left is
    a blank and the conditions joined by [ AND ], and for the empty object
    nothing at all (the WHEN branch then has no condition). *)
Theorem when_condition_text :
  (forall (kv : string * value) (o : obj),
     strip_where (_where (VObj (kv :: o)))
     = " " ++ join " AND " (map where_fragment (kv :: o)))
  /\ strip_where (_where (VObj [])) = "".
Proof.
  split; [|reflexivity].
  intros kv o. rewrite where_object. apply strip_where_clause.
Qed.

End Batch.

Section Leniency.
Context {E : Engine} {D : Delegate}.

Lemma replace_named_no_colon (values : obj) (sql : string) :
  contains_char ":" sql = false ->
  replace_named values sql None = sql.
Proof.
  induction sql as [|c r IH]; [reflexivity|].
  cbn [contains_char]. intros H. apply orb_false_iff in H as [Hc Hr].
  cbn [replace_named named_match]. rewrite Hc, (IH Hr).
  now destruct (is_word c).
Qed.

(** X12. In named mode the positional placeholders are not served: a
    template without a colon comes back unchanged whatever the object
    holds, question marks included. *)
Theorem named_mode_keeps_question_marks (values : obj) (sql : string)
  (stringifyObjects : bool) :
  contains_char ":" sql = false ->
  format sql (VObj values) stringifyObjects = sql.
Proof. intros H. unfold format. now apply replace_named_no_colon. Qed.



End Leniency.

Section BaseClass.
Context {E : Engine}.








End BaseClass.

Section BatchStatement.
Context {E : Engine} {D : Delegate}.

(** *** The scan over text without placeholders *)

Lemma scan_plain (so : bool) (s rest : string) (vals : list value) :
  no_question s = true ->
  SqlString.scan so (s ++ rest) 0 vals = s ++ SqlString.scan so rest 0 vals.
Proof.
  unfold no_question. induction s as [|c s IH]; [reflexivity|].
  cbn [contains_char]. intros H. apply negb_true_iff in H.
  apply orb_false_iff in H as [Hc Hs].
  cbn [append SqlString.scan]. rewrite Hc. cbn [SqlString.placeholder append].
  rewrite IH; [reflexivity|]. now rewrite Hs.
Qed.

Lemma scan_no_values (so : bool) (s : string) (q : nat) :
  SqlString.scan so s q [] = SqlString.question_marks q ++ s.
Proof.
  revert q. induction s as [|c s IH]; intros q.
  - cbn. destruct q as [|[|[|q]]]; cbn; now rewrite ?append_nil_r.
  - cbn [SqlString.scan]. destruct (Ascii.eqb c "?") eqn:Hc.
    + apply Ascii.eqb_eq in Hc. subst c. rewrite IH.
      clear IH. induction q as [|q IHq]; [reflexivity|].
      cbn [SqlString.question_marks append]. f_equal. exact IHq.
    + assert (Hp : SqlString.placeholder so q []
                   = (SqlString.question_marks q, []))
        by (destruct q as [|[|[|q]]]; reflexivity).
      rewrite Hp, IH. reflexivity.
Qed.

Lemma scan_branch (b : string * value) (rest : string) (vals : list value) :
  no_question (fst b) = true ->
  SqlString.scan false (when_fragment (fst b) ++ rest) 0 (snd b :: vals)
  = branch_text b ++ SqlString.scan false rest 0 vals.
Proof.
  intros Hb. unfold when_fragment, branch_text.
  rewrite !append_assoc.
  change (" WHEN " ++ fst b ++ " THEN ? " ++ rest)
    with (String " " (String "W" (String "H" (String "E" (String "N"
           (String " " (fst b ++ " THEN ? " ++ rest))))))).
  cbn [SqlString.scan Ascii.eqb Bool.eqb SqlString.placeholder append].
  rewrite (scan_plain false (fst b) _ _ Hb).
  cbn -[SqlString.escape]. rewrite ?append_assoc. reflexivity.
Qed.

Lemma scan_branches (bs : list (string * value)) (rest : string)
  (vals : list value) :
  Forall (fun b => no_question (fst b) = true) bs ->
  SqlString.scan false
    (concat_strings (map (fun b => " " ++ when_fragment (fst b)) bs) ++ rest)
    0 (map snd bs ++ vals)%list
  = concat_strings (map (fun b => " " ++ branch_text b) bs)
    ++ SqlString.scan false rest 0 vals.
Proof.
  intros H. induction H as [|b bs Hb Hbs IH]; [reflexivity|].
  cbn [map concat_strings app]. rewrite !append_assoc.
  change (" " ++ when_fragment (fst b) ++ ?x)
    with (String " " (when_fragment (fst b) ++ x)).
  cbn [SqlString.scan Ascii.eqb Bool.eqb SqlString.placeholder append].
  rewrite (scan_branch b _ _ Hb). do 2 f_equal. exact IH.
Qed.
Lemma scan_join_branches (bs : list (string * value)) (rest : string)
  (vals : list value) :
  Forall (fun b => no_question (fst b) = true) bs ->
  SqlString.scan false
    (join " " (map (fun b => when_fragment (fst b)) bs) ++ rest)
    0 (map snd bs ++ vals)%list
  = join " " (map branch_text bs) ++ SqlString.scan false rest 0 vals.
Proof.
  intros H. destruct H as [|b bs Hb Hbs]; [reflexivity|].
  cbn [map]. rewrite !join_cons, !map_map, !append_assoc. cbn [app].
  rewrite (scan_branch b _ _ Hb). f_equal.
  exact (scan_branches bs rest vals Hbs).
Qed.

Lemma scan_case (c : batch_case) (rest : string) (vals : list value) :
  plain_case c ->
  SqlString.scan false
    (" ?? = CASE " ++ join " " (fst (snd (accumulator_of c)))
     ++ " ELSE ?? END " ++ rest)
    0 ((VStr (fst (accumulator_of c))
        :: push (snd (snd (accumulator_of c))) (VStr (fst (accumulator_of c))))
       ++ vals)%list
  = case_text c ++ SqlString.scan false rest 0 vals.
Proof.
  intros Hc. destruct c as [k bs]. unfold plain_case in Hc.
  cbn [accumulator_of fst snd] in *. unfold push, case_text. cbn [fst snd].
  cbn [app]. rewrite <- app_assoc. cbn [app]. rewrite !append_assoc.
  change (" ?? = CASE " ++ ?x)
    with (String " " (String "?" (String "?" (String " " (String "="
           (String " " (String "C" (String "A" (String "S" (String "E"
           (String " " x))))))))))).
  cbn [SqlString.scan Ascii.eqb Bool.eqb SqlString.placeholder append].
  rewrite (scan_join_branches bs _ _ Hc).
  cbn -[SqlString.escapeId join branch_text map].
  rewrite ?append_assoc. reflexivity.
Qed.

Lemma scan_more_cases (cases : list batch_case) (rest : string)
  (vals : list value) :
  Forall plain_case cases ->
  SqlString.scan false
    (concat_strings
       (map (fun t => " , " ++ t)
            (updateRows_template (map accumulator_of cases))) ++ rest)
    0 (flat_map (fun c => VStr (fst c) :: push (snd (snd c)) (VStr (fst c)))
                (map accumulator_of cases) ++ vals)%list
  = concat_strings (map (fun t => " , " ++ t) (map case_text cases))
    ++ SqlString.scan false rest 0 vals.
Proof.
  intros H. unfold updateRows_template.
  induction H as [|c cases Hc Hcs IH]; [reflexivity|].
  cbn [map flat_map concat_strings].
  rewrite <- app_assoc. rewrite !append_assoc.
  rewrite (scan_plain false " , " _ _ eq_refl).
  rewrite (scan_case c _ _ Hc), IH. reflexivity.
Qed.

Lemma scan_cases (cases : list batch_case) (rest : string)
  (vals : list value) :
  Forall plain_case cases ->
  SqlString.scan false
    (join " , " (updateRows_template (map accumulator_of cases)) ++ rest)
    0 (flat_map (fun c => VStr (fst c) :: push (snd (snd c)) (VStr (fst c)))
                (map accumulator_of cases) ++ vals)%list
  = join " , " (map case_text cases) ++ SqlString.scan false rest 0 vals.
Proof.
  intros H. destruct H as [|c cases Hc Hcs]; [reflexivity|].
  cbn [map]. unfold updateRows_template at 1. cbn [map].
  fold (updateRows_template (map accumulator_of cases)).
  rewrite !join_cons. cbn [flat_map]. rewrite <- app_assoc.
  rewrite !append_assoc.
  rewrite (scan_case c _ _ Hc), (scan_more_cases cases rest vals Hcs).
  reflexivity.
Qed.

(** The statement for accumulators whose conditions are plain. *)
Lemma updateRows_sql_plain (table : value) (cases : list batch_case)
  (WHERE : where_acc) :
  Forall plain_case cases ->
  updateRows_sql table (map accumulator_of cases) WHERE
  = updateRows_text table cases WHERE.
Proof.
  intros H. unfold updateRows_sql, updateRows_text, updateRows_values, format.
  cbn [SqlString.format].
  change ("UPDATE ?? SET " ++ ?x)
    with (String "U" (String "P" (String "D" (String "A" (String "T"
           (String "E" (String " " (String "?" (String "?" (String " "
           (String "S" (String "E" (String "T" (String " " x)))))))))))))).
  cbn [SqlString.scan Ascii.eqb Bool.eqb SqlString.placeholder append].
  rewrite <- (app_nil_r (flat_map _ (map accumulator_of cases))).
  rewrite (scan_cases cases _ [] H), scan_no_values.
  cbn -[SqlString.escapeId join case_text map _where].
  reflexivity.
Qed.

(** *** Keys in the order in which they are first met *)

Lemma first_seen_in (k : string) (l : list string) :
  In k (first_seen l) <-> In k l.
Proof.
  induction l as [|a l IH]; [reflexivity|].
  cbn [first_seen In]. rewrite filter_In, IH.
  destruct (String.eqb k a) eqn:Hk.
  - apply String.eqb_eq in Hk. subst. tauto.
  - apply String.eqb_neq in Hk. cbn [negb]. split.
    + intros [H|[H _]]; [now left|now right].
    + intros [H|H]; [now left|right; now split].
Qed.

Lemma first_seen_nodup (l : list string) : NoDup (first_seen l).
Proof.
  induction l as [|a l IH]; cbn [first_seen]; constructor.
  - rewrite filter_In, String.eqb_refl. intros [_ H]. discriminate.
  - now apply NoDup_filter.
Qed.

Lemma existsb_eqb_in (k : string) (l : list string) :
  existsb (String.eqb k) l = true <-> In k l.
Proof.
  rewrite existsb_exists. split.
  - intros [x [Hx Hk]]. apply String.eqb_eq in Hk. now subst.
  - intros H. exists k. split; [exact H|apply String.eqb_refl].
Qed.

Lemma first_seen_snoc (l : list string) (k : string) :
  first_seen (l ++ [k])%list
  = if existsb (String.eqb k) l then first_seen l
    else (first_seen l ++ [k])%list.
Proof.
  induction l as [|a l IH]; [reflexivity|].
  cbn [app first_seen existsb]. rewrite IH.
  destruct (String.eqb k a) eqn:Hk; cbn [orb].
  - apply String.eqb_eq in Hk. subst a.
    destruct (existsb (String.eqb k) l); [reflexivity|].
    rewrite filter_app. cbn [filter]. rewrite String.eqb_refl. cbn [negb].
    now rewrite app_nil_r.
  - destruct (existsb (String.eqb k) l); [reflexivity|].
    rewrite filter_app. cbn [filter]. rewrite Hk. reflexivity.
Qed.


(** *** Filing under plain keys *)

Lemma under_snoc {V} (c : string) (l : list (string * V)) (kv : string * V) :
  under c (l ++ [kv])%list
  = (under c l ++ (if String.eqb (fst kv) c then [snd kv] else []))%list.
Proof.
  unfold under. rewrite filter_app, map_app. cbn [filter].
  now destruct (String.eqb (fst kv) c).
Qed.

Lemma under_unseen {V} (k : string) (l : list (string * V)) :
  existsb (String.eqb k) (map fst l) = false -> under k l = [].
Proof.
  unfold under. induction l as [|[k' v'] l IH]; [reflexivity|].
  cbn [map existsb fst filter]. intros H. apply orb_false_iff in H as [Hk Hl].
  rewrite String.eqb_sym, Hk. now apply IH.
Qed.

Lemma keys_filed {W V} (add : W -> V -> W) (init : W) (l : list (string * V)) :
  map fst (filed add init l) = first_seen (map fst l).
Proof. unfold filed. rewrite map_map. cbn [fst]. apply map_id. Qed.

Lemma has_key_filed {W V} (add : W -> V -> W) (init : W)
  (l : list (string * V)) (k : string) :
  has_key k (filed add init l) = existsb (String.eqb k) (map fst l).
Proof.
  apply Bool.eq_true_iff_eq.
  now rewrite has_key_in, keys_filed, first_seen_in, existsb_eqb_in.
Qed.

Lemma lookup_keyed {W} (f : string -> W) (k : string) (ks : list string) :
  In k ks -> lookup k (map (fun c => (c, f c)) ks) = Some (f k).
Proof.
  induction ks as [|c ks IH]; [contradiction|].
  cbn [map lookup]. destruct (String.eqb k c) eqn:Hk.
  - apply String.eqb_eq in Hk. now subst.
  - intros [H|H]; [subst; now rewrite String.eqb_refl in Hk|now apply IH].
Qed.

Lemma replace_key_keyed {W} (f : string -> W) (k : string) (x : W)
  (ks : list string) :
  NoDup ks ->
  replace_key k x (map (fun c => (c, f c)) ks)
  = map (fun c => (c, if String.eqb k c then x else f c)) ks.
Proof.
  induction 1 as [|c ks Hc Hnd IH]; [reflexivity|].
  cbn [map replace_key]. destruct (String.eqb k c) eqn:Hk.
  - apply String.eqb_eq in Hk. subst c. f_equal.
    apply map_ext_in. intros c Hin.
    destruct (String.eqb k c) eqn:Hkc; [|reflexivity].
    apply String.eqb_eq in Hkc. now subst.
  - now rewrite IH.
Qed.

Lemma replace_key_last {W} (k : string) (x y : W) (o : list (string * W)) :
  has_key k o = false ->
  replace_key k x (o ++ [(k, y)])%list = (o ++ [(k, x)])%list.
Proof.
  unfold has_key. induction o as [|[k' v'] o IH]; cbn.
  - now rewrite String.eqb_refl.
  - destruct (String.eqb k k'); [discriminate|]. intros H. now rewrite IH.
Qed.

Lemma has_key_last {W} (k : string) (y : W) (o : list (string * W)) :
  has_key k (o ++ [(k, y)])%list = true.
Proof.
  unfold has_key. induction o as [|[k' v'] o IH]; cbn.
  - now rewrite String.eqb_refl.
  - now destruct (String.eqb k k').
Qed.

Lemma filed_snoc {W V} (add : W -> V -> W) (init : W)
  (l : list (string * V)) (kv : string * V) :
  filed add init (l ++ [kv])
  = map (fun c => (c, fold_left add (under c (l ++ [kv])%list) init))
        (if existsb (String.eqb (fst kv)) (map fst l)
         then first_seen (map fst l)
         else (first_seen (map fst l) ++ [fst kv])%list).
Proof.
  unfold filed. rewrite map_app. cbn [map]. now rewrite first_seen_snoc.
Qed.

(** Filing one more item. *)
Lemma file_under_filed {W V} (add : W -> V -> W) (init : W)
  (l : list (string * V)) (kv : string * V) :
  array_index (fst kv) = None ->
  file_under add init (filed add init l) kv = filed add init (l ++ [kv]).
Proof.
  intros Hplain. rewrite filed_snoc. unfold file_under. cbv zeta.
  rewrite (has_key_filed add init l (fst kv)).
  destruct (existsb (String.eqb (fst kv)) (map fst l)) eqn:Hseen.
  - assert (Hin : In (fst kv) (first_seen (map fst l)))
      by now rewrite first_seen_in, <- existsb_eqb_in.
    unfold filed at 1 2.
    rewrite (lookup_keyed (fun k => fold_left add (under k l) init) _ _ Hin).
    unfold set_prop.
    fold (filed add init l). rewrite (has_key_filed add init l (fst kv)), Hseen.
    unfold filed.
    rewrite (replace_key_keyed (fun k => fold_left add (under k l) init)
               _ _ _ (first_seen_nodup _)).
    apply map_ext. intros c. rewrite under_snoc, fold_left_app.
    destruct (String.eqb (fst kv) c) eqn:Hkc; [|reflexivity].
    apply String.eqb_eq in Hkc. now subst c.
  - assert (Hnew : has_key (fst kv) (filed add init l) = false)
      by now rewrite has_key_filed.
    assert (Hset : set_prop (fst kv) init (filed add init l)
                   = (filed add init l ++ [(fst kv, init)])%list).
    { unfold set_prop. now rewrite Hnew, Hplain. }
    rewrite Hset.
    assert (Hl : lookup (fst kv) (filed add init l ++ [(fst kv, init)])%list
                 = Some init) by now apply lookup_push_same.
    rewrite Hl. unfold set_prop. rewrite has_key_last.
    rewrite (replace_key_last _ _ _ _ Hnew).
    rewrite map_app. cbn [map]. f_equal.
    + unfold filed. apply map_ext_in. intros c Hc.
      rewrite under_snoc. destruct (String.eqb (fst kv) c) eqn:Hkc.
      * apply String.eqb_eq in Hkc. subst c.
        apply (proj1 (first_seen_in _ _)) in Hc.
        apply (proj2 (existsb_eqb_in _ _)) in Hc. congruence.
      * now rewrite app_nil_r.
    + rewrite under_snoc, String.eqb_refl, (under_unseen _ _ Hseen).
      reflexivity.
Qed.

(** The loop that files a list of items under plain keys, from the empty
    object. *)
Lemma fold_file_under {W V} (add : W -> V -> W) (init : W)
  (l : list (string * V)) :
  forallb (fun kv => match array_index (fst kv) with
                     | Some _ => false
                     | None => true
                     end) l = true ->
  fold_left (file_under add init) l [] = filed add init l.
Proof.
  induction l as [|kv l IH] using rev_ind; [reflexivity|].
  rewrite forallb_app. cbn [forallb]. intros H.
  apply andb_prop in H as [Hl Hkv]. rewrite andb_true_r in Hkv.
  rewrite fold_left_app. cbn [fold_left]. rewrite (IH Hl).
  apply file_under_filed. now destruct (array_index (fst kv)).
Qed.


(** *** What a column and a condition column accumulate *)

Lemma fold_add_branch (bs : list (string * value))
  (a : list string * list value) :
  fold_left add_branch bs a
  = ((fst a ++ map (fun b => when_fragment (fst b)) bs)%list,
     (snd a ++ map snd bs)%list).
Proof.
  revert a. induction bs as [|b bs IH]; intros a.
  - cbn. rewrite !app_nil_r. now destruct a.
  - cbn [fold_left map]. rewrite IH. unfold add_branch, push. cbn [fst snd].
    now rewrite <- !app_assoc.
Qed.

Lemma filed_branches (l : list (string * (string * value))) :
  filed add_branch ([], []) l
  = map accumulator_of
        (map (fun c => (c, under c l)) (first_seen (map fst l))).
Proof.
  unfold filed. rewrite map_map. apply map_ext. intros c.
  now rewrite fold_add_branch.
Qed.

Lemma strict_eq_eq (a b : value) : strict_eq a b = true -> a = b.
Proof.
  destruct a, b; cbn; try discriminate; intros H; try reflexivity.
  - apply Bool.eqb_prop in H. now subst.
  - apply Z.eqb_eq in H. now subst.
  - apply String.eqb_eq in H. now subst.
Qed.

Lemma existsb_filter_strict (a v : value) (l : list value) :
  strict_eq a v = false ->
  existsb (fun x => strict_eq x v)
          (filter (fun y => negb (strict_eq a y)) l)
  = existsb (fun x => strict_eq x v) l.
Proof.
  intros Hav. induction l as [|x l IH]; [reflexivity|].
  cbn [filter existsb]. destruct (strict_eq a x) eqn:Hax; cbn [negb].
  - apply strict_eq_eq in Hax. subst x. now rewrite Hav.
  - cbn [existsb]. now rewrite IH.
Qed.

Lemma distinct_snoc (l : list value) (v : value) :
  distinct (l ++ [v])%list = add_distinct (distinct l) v.
Proof.
  unfold add_distinct, push. induction l as [|a l IH]; [reflexivity|].
  cbn [app distinct existsb]. rewrite IH.
  destruct (strict_eq a v) eqn:Hav; cbn [orb].
  - destruct (existsb (fun x => strict_eq x v) (distinct l)); [reflexivity|].
    rewrite filter_app. cbn [filter]. rewrite Hav. cbn [negb].
    now rewrite app_nil_r.
  - rewrite (existsb_filter_strict a v _ Hav).
    destruct (existsb (fun x => strict_eq x v) (distinct l)); [reflexivity|].
    rewrite filter_app. cbn [filter]. rewrite Hav. reflexivity.
Qed.

Lemma fold_add_distinct (l : list value) :
  fold_left add_distinct l [] = distinct l.
Proof.
  induction l as [|v l IH] using rev_ind; [reflexivity|].
  now rewrite fold_left_app, distinct_snoc, <- IH.
Qed.

Lemma filed_conditions (l : list (string * value)) :
  filed add_distinct [] l
  = map (fun c => (c, distinct (under c l))) (first_seen (map fst l)).
Proof.
  unfold filed. apply map_ext. intros c. now rewrite fold_add_distinct.
Qed.

(** *** The two loops of a round, on plain keys *)

Lemma replace_key_same {W} (k : string) (w : W) (o : list (string * W)) :
  lookup k o = Some w -> replace_key k w o = o.
Proof.
  induction o as [|[k' w'] o IH]; [reflexivity|]. cbn.
  destruct (String.eqb k k') eqn:Hk.
  - intros H. injection H as ->. reflexivity.
  - intros H. now rewrite IH.
Qed.

Lemma push_case_files (w : string) (c : sql_case) (kv : string * value) :
  is_prototype_member (fst kv) = false ->
  push_case w c kv
  = Ok (file_under add_branch ([], []) c (fst kv, (w, snd kv))).
Proof.
  intros Hk. unfold push_case, file_under. rewrite Hk, andb_false_r.
  cbv zeta. cbn [fst snd].
  destruct (lookup (fst kv) _) as [[when_ then_]|]; reflexivity.
Qed.

Lemma push_where_files (c : where_acc) (kv : string * value) :
  is_prototype_member (fst kv) = false ->
  push_where c kv = Ok (file_under add_distinct [] c kv).
Proof.
  intros Hk. unfold push_where, file_under. rewrite Hk, andb_false_r.
  cbv zeta.
  assert (Hany : forall c' : where_acc,
            match lookup (fst kv) c' with
            | Some seen =>
                if existsb (fun x => strict_eq x (snd kv)) seen then Ok c'
                else Ok (set_prop (fst kv) (push seen (snd kv)) c')
            | None => Ok c'
            end
            = Ok match lookup (fst kv) c' with
                 | Some w => set_prop (fst kv) (add_distinct w (snd kv)) c'
                 | None => c'
                 end).
  { intros c'. destruct (lookup (fst kv) c') as [seen|] eqn:Hl; [|reflexivity].
    unfold add_distinct.
    destruct (existsb (fun x => strict_eq x (snd kv)) seen); [|reflexivity].
    unfold set_prop, has_key. rewrite Hl.
    now rewrite (replace_key_same _ _ _ Hl). }
  destruct (has_key (fst kv) c); apply Hany.
Qed.

Lemma fold_push_case (w : string) (row : obj) (c : sql_case) :
  forallb (fun kv => plain_key (fst kv)) row = true ->
  rfold_left (push_case w) row c
  = Ok (fold_left (file_under add_branch ([], []))
                  (map (fun kv => (fst kv, (w, snd kv))) row) c).
Proof.
  revert c. induction row as [|kv row IH]; intros c; [reflexivity|].
  cbn [forallb]. intros H. apply andb_prop in H as [Hkv Hrow].
  unfold plain_key in Hkv. apply andb_prop in Hkv as [_ Hkv].
  apply negb_true_iff in Hkv.
  cbn [rfold_left map fold_left]. rewrite (push_case_files w c kv Hkv).
  cbn [rbind]. now apply IH.
Qed.

Lemma fold_push_where (conditions : obj) (c : where_acc) :
  forallb (fun kv => andb (plain_key (fst kv)) (is_scalar (snd kv)))
          conditions = true ->
  rfold_left push_where conditions c
  = Ok (fold_left (file_under add_distinct []) conditions c).
Proof.
  revert c. induction conditions as [|kv o IH]; intros c; [reflexivity|].
  cbn [forallb]. intros H. apply andb_prop in H as [Hkv Ho].
  apply andb_prop in Hkv as [Hkv _].
  unfold plain_key in Hkv. apply andb_prop in Hkv as [_ Hkv].
  apply negb_true_iff in Hkv.
  cbn [rfold_left fold_left]. rewrite (push_where_files c kv Hkv).
  cbn [rbind]. now apply IH.
Qed.


(** *** The entries of the batch *)

Lemma not_member_proto (k : string) :
  is_prototype_member k = false -> String.eqb k "__proto__" = false.
Proof.
  unfold is_prototype_member, prototype_members. cbn [existsb]. intros H.
  repeat (apply orb_false_iff in H; destruct H as [? H]). assumption.
Qed.

Lemma has_key_app {W} (k : string) (a b : list (string * W)) :
  has_key k (a ++ b)%list = orb (has_key k a) (has_key k b).
Proof.
  unfold has_key. induction a as [|[k' w'] a IH]; cbn.
  - now destruct (lookup k b).
  - now destruct (String.eqb k k').
Qed.

Lemma reduce_plain (o acc : obj) :
  (forall kv, In kv o -> has_key (fst kv) acc = false) ->
  distinct_keys (map fst o) = true ->
  forallb (fun kv => plain_key (fst kv))
          (filter (fun kv => negb (String.eqb (fst kv) "id")) o) = true ->
  fold_left (fun result kv =>
               if negb (String.eqb (fst kv) "id")
               then assign_entry result kv
               else result) o (acc, [])
  = ((acc ++ filter (fun kv => negb (String.eqb (fst kv) "id")) o)%list, []).
Proof.
  revert acc. induction o as [|[k v] o IH]; intros acc Hacc Hd Hp.
  - cbn. now rewrite app_nil_r.
  - cbn [map fst distinct_keys] in Hd. apply andb_prop in Hd as [Hk Hd].
    apply negb_true_iff in Hk.
    cbn [fold_left filter fst] in Hp |- *.
    destruct (String.eqb k "id") eqn:Hid; cbn [negb] in Hp |- *.
    + apply IH; [|exact Hd|exact Hp].
      intros kv Hin. apply Hacc. now right.
    + cbn [forallb fst] in Hp. apply andb_prop in Hp as [Hpk Hp].
      unfold plain_key in Hpk. apply andb_prop in Hpk as [Hidx Hmem].
      apply negb_true_iff in Hmem.
      assert (Hnew : has_key k acc = false) by (apply (Hacc (k, v)); now left).
      unfold assign_entry. cbn [fst snd].
      rewrite (not_member_proto k Hmem). unfold set_prop. rewrite Hnew.
      destruct (array_index k); [discriminate|].
      unfold push. rewrite IH; [|
        | exact Hd | exact Hp].
      * now rewrite <- app_assoc.
      * intros kv Hin. rewrite has_key_app, (Hacc kv (or_intror Hin)).
        cbn [orb]. unfold has_key. cbn [lookup].
        destruct (String.eqb (fst kv) k) eqn:Hkv; [|reflexivity].
        apply String.eqb_eq in Hkv. subst k.
        assert (Hex : existsb (String.eqb (fst kv)) (map fst o) = true).
        { apply existsb_eqb_in. now apply in_map. }
        congruence.
Qed.

Lemma reduce_row_plain (o : obj) :
  distinct_keys (map fst o) = true ->
  forallb (fun kv => plain_key (fst kv))
          (filter (fun kv => negb (String.eqb (fst kv) "id")) o) = true ->
  reduce_row (VObj o) = filter (fun kv => negb (String.eqb (fst kv) "id")) o.
Proof.
  intros Hd Hp. unfold reduce_row. cbn [for_in].
  pose proof (reduce_plain o [] (fun _ _ => eq_refl) Hd Hp) as H.
  unfold obj in H |- *. rewrite H.
  unfold enumerated. cbn. now rewrite app_nil_r.
Qed.

(** The round reads a proper element as the entry it stands for. *)
Lemma normalize_proper (option : value) :
  proper_option option = true ->
  plain_entry (entry_of option) = true ->
  normalize_option option
  = Ok (VObj (fst (entry_of option)), VObj (snd (entry_of option))).
Proof.
  destruct option as [| | | | | |o]; try discriminate.
  cbn [proper_option entry_of]. intros H Hplain.
  apply andb_prop in H as [Hd H]. apply andb_prop in H as [Hown H].
  apply negb_true_iff in Hown.
  unfold normalize_option. cbn [hasOwnProperty]. rewrite Hown. cbn [rbind].
  unfold has_key in H |- *.
  destruct (lookup "id" o) as [id|] eqn:Hid.
  - cbn [get_prop rbind]. rewrite Hid.
    unfold plain_entry in Hplain. cbn [fst snd] in Hplain |- *.
    apply andb_prop in Hplain as [Hrow _].
    now rewrite (reduce_row_plain o Hd Hrow).
  - cbn [orb] in H. apply andb_prop in H as [Hr Hw].
    cbn [get_prop rbind]. fold (prop o "row") (prop o "where").
    destruct (prop o "row") as [| | | | | |r]; try discriminate.
    destruct (prop o "where") as [| | | | | |w]; try discriminate.
    reflexivity.
Qed.

Lemma condition_text_strip (conditions : obj) :
  strip_where (_where (VObj conditions)) = condition_text conditions.
Proof.
  destruct conditions as [|kv o]; [reflexivity|].
  rewrite (where_object kv o). apply strip_where_clause.
Qed.

Lemma where_text_where (conditions : obj) :
  _where (VObj conditions) = where_text conditions.
Proof.
  destruct conditions as [|kv o]; [reflexivity|]. apply where_object.
Qed.

(** The loop over a batch of proper elements files the assignments and
    the conditions of the entries. *)
Lemma updateRows_loop_files (options : list value) (c : sql_case)
  (w : where_acc) :
  forallb proper_option options = true ->
  forallb plain_entry (map entry_of options) = true ->
  updateRows_loop (c, w) options
  = Ok (fold_left (file_under add_branch ([], []))
                  (assignments (map entry_of options)) c,
        fold_left (file_under add_distinct [])
                  (conditions (map entry_of options)) w).
Proof.
  revert c w. induction options as [|option rest IH]; intros c w;
    [reflexivity|].
  cbn [forallb map]. intros Hp He.
  apply andb_prop in Hp as [Hp Hps]. apply andb_prop in He as [He Hes].
  cbn [updateRows_loop]. unfold updateRows_step.
  rewrite (normalize_proper option Hp He). cbn [rbind fst snd for_in].
  rewrite condition_text_strip.
  unfold plain_entry in He. apply andb_prop in He as [Hrow He].
  apply andb_prop in He as [Hcond _].
  rewrite (fold_push_case _ _ c Hrow). cbn [rbind].
  rewrite (fold_push_where _ w Hcond). cbn [rbind].
  rewrite (IH _ _ Hps Hes).
  unfold assignments, conditions. cbn [flat_map].
  now rewrite !fold_left_app.
Qed.

Lemma plain_entries_keys (batch : list batch_entry) :
  forallb plain_entry batch = true ->
  forallb (fun kv => match array_index (fst kv) with
                     | Some _ => false
                     | None => true
                     end) (assignments batch) = true
  /\ forallb (fun kv => match array_index (fst kv) with
                        | Some _ => false
                        | None => true
                        end) (conditions batch) = true
  /\ Forall (fun ev => no_question (fst (snd ev)) = true) (assignments batch).
Proof.
  induction batch as [|e batch IH]; [now repeat split|].
  cbn [forallb]. intros H. apply andb_prop in H as [He Hb].
  destruct (IH Hb) as [IH1 [IH2 IH3]].
  unfold plain_entry in He. apply andb_prop in He as [Hrow He].
  apply andb_prop in He as [Hcond Hq].
  unfold assignments, conditions. cbn [flat_map].
  rewrite !forallb_app.
  fold (assignments batch) (conditions batch). rewrite IH1, IH2, !andb_true_r.
  split; [|split].
  - rewrite forallb_forall in Hrow |- *. intros ev Hin.
    apply in_map_iff in Hin as [kv [<- Hkv]]. cbn [fst].
    specialize (Hrow kv Hkv). unfold plain_key in Hrow.
    apply andb_prop in Hrow as [Hrow _]. exact Hrow.
  - rewrite forallb_forall in Hcond |- *. intros kv Hkv.
    specialize (Hcond kv Hkv). apply andb_prop in Hcond as [Hcond _].
    unfold plain_key in Hcond. apply andb_prop in Hcond as [Hcond _].
    exact Hcond.
  - apply Forall_app. split; [|exact IH3].
    apply Forall_forall. intros ev Hin.
    apply in_map_iff in Hin as [kv [<- Hkv]]. exact Hq.
Qed.

Lemma cases_of_plain (batch : list batch_entry) :
  Forall (fun ev => no_question (fst (snd ev)) = true) (assignments batch) ->
  Forall plain_case (cases_of batch).
Proof.
  intros H. unfold cases_of. apply Forall_forall. intros c Hc.
  apply in_map_iff in Hc as [k [<- _]]. unfold plain_case, under. cbn [snd].
  apply Forall_forall. intros b Hb.
  apply in_map_iff in Hb as [ev [<- Hev]]. apply filter_In in Hev as [Hev _].
  rewrite Forall_forall in H. now apply H.
Qed.

(** X16. The statement of [updateRows] for a batch, read entry by entry.
    Each element of the array is an object that has no property named
    [hasOwnProperty] and stands for an entry: [{id, ...columns}] for the
    columns under the condition [{id}], [{row, where}] for the row under
    the condition.  When the columns and the condition columns are plain
    keys, the condition values scalars and the rendered conditions free of
    question marks, [updateRows] sends one text: the UPDATE of the escaped
    table with, for each column in the order in which the batch first sets
    it, [`col` = CASE], one branch [WHEN condition THEN value] per entry
    that sets the column, in the order of the batch, and [ELSE `col` END];
    then the WHERE clause with, for each condition column in the order in
    which the batch first names it, the distinct values the batch gives
    it. *)
Theorem updateRows_statement (table : value) (options : list value)
  (st : store) :
  forallb proper_option options = true ->
  forallb plain_entry (map entry_of options) = true ->
  sent (snd (updateRows table (VArr options) st))
  = push (sent st) (batch_text table (map entry_of options)).
Proof.
  intros Hp He. unfold updateRows, bind, lift.
  pose proof (updateRows_loop_files options [] [] Hp He) as Hloop.
  unfold sql_case, where_acc in Hloop |- *. rewrite Hloop. cbn [fst snd].
  destruct (plain_entries_keys _ He) as [Ha [Hc Hq]].
  rewrite (fold_file_under add_branch ([], []) _ Ha), filed_branches.
  rewrite (fold_file_under add_distinct [] _ Hc), filed_conditions.
  fold (cases_of (map entry_of options)).
  fold (conditions_of (map entry_of options)).
  rewrite query_store_any. cbn [after_send sent query_text].
  rewrite (updateRows_sql_plain table _ _ (cases_of_plain _ Hq)).
  unfold updateRows_text, batch_text. now rewrite where_text_where.
Qed.

End BatchStatement.

Section SelectAndFrame.
Context {E : Engine} {D : Delegate}.

(** X17. The statement of [select], part by part: the head is
    [SELECT * FROM] the table when the options name no columns or the
    string ['*'], and otherwise the SELECT of the escaped columns (an array
    holding ['*'] gives the escaped identifier, not the star); after the
    WHERE and ORDER BY fragments comes no LIMIT clause when [limit] is 0 or
    not a number, and otherwise [ LIMIT offset, limit] with 0 for an
    [offset] that is not a number. *)
Theorem select_statement (table : value) (l : loc) (st : store)
  (orders_sql : string) :
  _orders (prop (heap st l) "orders") = Ok orders_sql ->
  sent (snd (select table (Some l) st))
  = push (sent st)
         (_selectColumns table (prop (heap st l) "columns")
          ++ _where (prop (heap st l) "where") ++ orders_sql
          ++ _limit (prop (heap st l) "limit") (prop (heap st l) "offset"))
  /\ (forall columns : value,
        truthy columns = false \/ columns = VStr "*" ->
        _selectColumns table columns
        = "SELECT * FROM " ++ SqlString.escapeId table)
  /\ (forall columns : value,
        truthy columns = true -> columns <> VStr "*" ->
        _selectColumns table columns
        = "SELECT " ++ SqlString.escapeId columns ++ " FROM "
          ++ SqlString.escapeId table)
  /\ _selectColumns table (VArr [VStr "*"])
     = "SELECT `*` FROM " ++ SqlString.escapeId table
  /\ (forall limit offset : value,
        (forall n, limit = VNum n -> n = 0%Z) -> _limit limit offset = "")
  /\ (forall (n : Z) (offset : value),
        n <> 0%Z ->
        _limit (VNum n) offset
        = " LIMIT "
          ++ number_to_string (match offset with VNum k => k | _ => 0%Z end)
          ++ ", " ++ number_to_string n).
Proof.
  intros Horders.
  repeat match goal with |- _ /\ _ => split end.
  - rewrite select_run, Horders, query_store_any. reflexivity.
  - intros columns [Hc| ->]; [|reflexivity].
    unfold _selectColumns. rewrite Hc. reflexivity.
  - intros columns Hc Hne.
    assert (Hfmt : format "SELECT ?? FROM ??" (VArr [columns; table]) false
                   = "SELECT " ++ SqlString.escapeId columns ++ " FROM "
                     ++ SqlString.escapeId table).
    { unfold format. cbn -[SqlString.escapeId].
      rewrite ?append_assoc. reflexivity. }
    rewrite <- Hfmt. unfold _selectColumns. rewrite Hc. clear Hfmt Hc.
    generalize (format "SELECT ?? FROM ??" (VArr [columns; table]) false).
    generalize (format "SELECT * FROM ??" (VArr [table]) false).
    intros A B. destruct columns as [| | | |s| |]; try reflexivity.
    destruct s as [|c s]; [reflexivity|].
    destruct s as [|c' s'].
    + destruct c as [[] [] [] [] [] [] [] []]; try reflexivity.
      congruence.
    + destruct c as [[] [] [] [] [] [] [] []]; reflexivity.
  - reflexivity.
  - intros limit offset Hl. unfold _limit.
    destruct limit as [| |b|n| | |]; cbn [is_number negb];
      rewrite ?orb_true_r; try reflexivity.
    rewrite (Hl n eq_refl). reflexivity.
  - intros n offset Hn. unfold _limit. cbn [truthy is_number negb orb].
    apply Z.eqb_neq in Hn. rewrite Hn. cbn [negb].
    destruct offset; reflexivity.
Qed.

Lemma settle_other (options : option loc) (st : store) (l' : loc) :
  l' <> fst (settle options st) ->
  heap (snd (settle options st)) l' = heap st l'.
Proof.
  destruct options as [l|]; cbn [settle fst snd heap]; [reflexivity|].
  intros H. now apply update_heap_other.
Qed.

(** X18. What the writing operations leave alone: [get], [insert] and
    [update] change no object but their options object, which is the one
    the caller gave or, when none was given, a fresh one at the next free
    location of the store. *)
Theorem writes_stay_in_options (table : value) (options : option loc)
  (st : store) (l' : loc) :
  l' <> fst (settle options st) ->
  (forall where_, heap (snd (get table where_ options st)) l' = heap st l')
  /\ (forall rows, heap (snd (insert table rows options st)) l' = heap st l')
  /\ (forall row, heap (snd (update table row options st)) l' = heap st l').
Proof.
  intros Hne. pose proof (settle_other options st l' Hne) as H0.
  split; [|split].
  - intros where_. rewrite get_run. unfold bind.
    pose proof (select_store table (fst (settle options st))
                  (set_field (fst (settle options st)) "offset" (VNum 0)
                     (set_field (fst (settle options st)) "limit" (VNum 1)
                        (set_field (fst (settle options st)) "where" where_
                           (snd (settle options st)))))) as [Hh _].
    destruct (select table _ _) as [[rows|e] st']; cbn [snd] in Hh |- *;
      unfold lift; cbn [snd]; rewrite Hh;
      now rewrite !heap_set_field_other.
  - intros rows. rewrite insert_run, default_columns_run.
    destruct (truthy _).
    + destruct (rmap_list _ _); [rewrite query_store_any|]; exact H0.
    + destruct (object_keys _); [|exact H0].
      destruct (rmap_list _ _); [rewrite query_store_any|];
        cbn [snd after_send heap]; now rewrite heap_set_field_other.
  - intros row.
    assert (Hsame : update table row options st
                    = update table row (Some (fst (settle options st)))
                             (snd (settle options st))).
    { unfold update. unfold bind at 1. rewrite or_fresh_settle. reflexivity. }
    rewrite Hsame, update_store. unfold bind. rewrite default_columns_run.
    destruct (truthy (prop (heap (snd (settle options st)) _) "columns")).
    + rewrite default_where_run. destruct (truthy _); [exact H0|].
      destruct (in_op "id" row) as [[|]|]; try exact H0.
      destruct (get_prop row "id"); [|exact H0].
      cbn [snd]. now rewrite heap_set_field_other.
    + destruct (object_keys row); [|exact H0].
      rewrite default_where_run. destruct (truthy _).
      * cbn [snd]. now rewrite heap_set_field_other.
      * destruct (in_op "id" row) as [[|]|];
          try (cbn [snd]; now rewrite heap_set_field_other).
        destruct (get_prop row "id"); cbn [snd];
          now rewrite ?heap_set_field_other by exact Hne.
Qed.

End SelectAndFrame.

(** The DELETE of table [t] without a condition. *)
Lemma delete_statement_witness :
  sent (snd (@delete headline_engine one_row_delegate (VStr "t") VUndefined
               empty_store))
  = ["DELETE FROM `t`"].
Proof.
  exact (proj1 (@delete_statement headline_engine one_row_delegate (VStr "t")
                  empty_store) VUndefined eq_refl).
Defined.

(** [get] on table [t] with options that ask for ten rows from the fifth. *)
Lemma get_statement_and_result_witness :
  sent (snd (@get headline_engine one_row_delegate (VStr "t")
               (VObj [("a", VNum 1)]) (Some 0)
               (mkStore (fun _ => [("limit", VNum 10); ("offset", VNum 5)])
                        1 [])))
  = ["SELECT * FROM `t` WHERE `a` = 1 LIMIT 0, 1"].
Proof.
  exact (proj1 (@get_statement_and_result headline_engine one_row_delegate
                  (VStr "t") (VObj [("a", VNum 1)]) (Some 0)
                  (mkStore (fun _ => [("limit", VNum 10); ("offset", VNum 5)])
                           1 [])
                  "" eq_refl)).
Defined.

(** Two rows into table [t], the second without [b]. *)
Lemma insert_statement_witness :
  sent (snd (@insert headline_engine one_row_delegate (VStr "t")
               (VArr [VObj [("a", VNum 1); ("b", VNum 2)];
                      VObj [("a", VNum 3)]]) None empty_store))
  = ["INSERT INTO `t`(`a`, `b`) VALUES(1, 2), (3, NULL)"].
Proof.
  exact (proj2 (@insert_statement headline_engine one_row_delegate (VStr "t")
                  None empty_store)
               [("a", VNum 1); ("b", VNum 2)] [[("a", VNum 3)]] eq_refl eq_refl).
Defined.

(** No rows and no columns. *)
Lemma insert_single_and_empty_witness :
  sent (snd (@insert headline_engine one_row_delegate (VStr "t") (VArr []) None
               empty_store)) = [].
Proof.
  exact (proj2 (proj1 (proj2 (@insert_single_and_empty headline_engine
                                one_row_delegate (VStr "t") None empty_store))
                      eq_refl)).
Defined.

(** [update('t', {id: 7, name: 'x'})] without options, and
    [update('t', {name: 'x'}, {columns: ['name', 'zip'], where: {id: 7}})]. *)
Lemma update_statement_witness :
  sent (snd (@update headline_engine one_row_delegate (VStr "t")
               (VObj [("id", VNum 7); ("name", VStr "x")]) None empty_store))
  = ["UPDATE `t` SET `id` = 7, `name` = 'x' WHERE `id` = 7"]
  /\ sent (snd (@update headline_engine one_row_delegate (VStr "t")
                  (VObj [("name", VStr "x")]) (Some 0)
                  (mkStore (fun _ => [("columns", VArr [VStr "name"; VStr "zip"]);
                                      ("where", VObj [("id", VNum 7)])]) 1 [])))
     = ["UPDATE `t` SET `name` = 'x', `zip` = NULL WHERE `id` = 7"].
Proof.
  split.
  - exact (proj2 (@update_statement headline_engine one_row_delegate (VStr "t")
                    [("id", VNum 7); ("name", VStr "x")] None empty_store)
                 (VNum 7) eq_refl eq_refl eq_refl).
  - exact (proj1 (@update_statement headline_engine one_row_delegate (VStr "t")
                    [("name", VStr "x")] (Some 0)
                    (mkStore (fun _ => [("columns", VArr [VStr "name"; VStr "zip"]);
                                        ("where", VObj [("id", VNum 7)])]) 1 []))
                 ["name"; "zip"] eq_refl eq_refl eq_refl).
Defined.

(** The accumulators of a batch that names one [id] twice. *)
Lemma updateRows_accumulators_witness :
  batch_invariant
    ([("name", ([" WHEN  `id` = 1 THEN ? "; " WHEN  `id` = 1 THEN ? "],
                [VStr "a"; VStr "b"]))],
     [("id", [VNum 1])]).
Proof.
  exact (@updateRows_accumulators headline_engine
           [VObj [("id", VNum 1); ("name", VStr "a")];
            VObj [("id", VNum 1); ("name", VStr "b")]]
           _ eq_refl).
Defined.

(** A batch of three: two entries given by their [id], one written out;
    the second and the third meet columns and an [id] seen before. *)
Lemma updateRows_statement_witness :
  sent (snd (@updateRows headline_engine one_row_delegate (VStr "t")
               (VArr [VObj [("id", VNum 1); ("name", VStr "a"); ("age", VNum 3)];
                      VObj [("row", VObj [("name", VStr "b")]);
                            ("where", VObj [("id", VNum 2)])];
                      VObj [("id", VNum 1); ("age", VNum 5)]])
               empty_store))
  = ["UPDATE `t` SET  `name` = CASE  WHEN  `id` = 1 THEN 'a'   WHEN  `id` = 2 THEN 'b'  ELSE `name` END  ,  `age` = CASE  WHEN  `id` = 1 THEN 3   WHEN  `id` = 1 THEN 5  ELSE `age` END  WHERE `id` IN (1, 2)"].
Proof.
  exact (@updateRows_statement headline_engine one_row_delegate (VStr "t")
           [VObj [("id", VNum 1); ("name", VStr "a"); ("age", VNum 3)];
            VObj [("row", VObj [("name", VStr "b")]);
                  ("where", VObj [("id", VNum 2)])];
            VObj [("id", VNum 1); ("age", VNum 5)]]
           empty_store eq_refl eq_refl).
Defined.

(** A template of question marks, formatted by name. *)
Lemma named_mode_keeps_question_marks_witness :
  format "SELECT ?? FROM ?" (VObj [("a", VNum 1)]) false = "SELECT ?? FROM ?".
Proof.
  exact (named_mode_keeps_question_marks [("a", VNum 1)] "SELECT ?? FROM ?"
           false eq_refl).
Defined.



(** A select that asks for ten rows from the fifth. *)
Lemma select_statement_witness :
  sent (snd (@select headline_engine one_row_delegate (VStr "t") (Some 0)
               (mkStore (fun _ => [("columns", VArr [VStr "a"; VStr "b"]);
                                   ("limit", VNum 10); ("offset", VNum 5)])
                        1 [])))
  = ["SELECT `a`, `b` FROM `t` LIMIT 5, 10"].
Proof.
  exact (proj1 (@select_statement headline_engine one_row_delegate (VStr "t") 0
                  (mkStore (fun _ => [("columns", VArr [VStr "a"; VStr "b"]);
                                      ("limit", VNum 10); ("offset", VNum 5)])
                           1 [])
                  "" eq_refl)).
Defined.

(** An [update] without options in a store that holds one object. *)
Lemma writes_stay_in_options_witness :
  heap (snd (@update headline_engine one_row_delegate (VStr "t")
               (VObj [("id", VNum 7)]) None
               (mkStore (fun _ => [("limit", VNum 3)]) 1 []))) 0
  = [("limit", VNum 3)].
Proof.
  refine (proj2 (proj2 (@writes_stay_in_options headline_engine
                          one_row_delegate (VStr "t") None
                          (mkStore (fun _ => [("limit", VNum 3)]) 1 []) 0 _))
                (VObj [("id", VNum 7)])).
  cbn. lia.
Defined.

End Extra.
